(** * The CSV base scanner of DuckDB, embedded in Rocq

  A shallow embedding of [base_scanner.cpp]
  (namespace [duckdb]: [ScannerResult], [ScannerPosition], [BaseScanner]).

    - [idx_t] is [uint64_t]: a [Z] with the wrap-around written out.
    - A C++ exception is a value of [outcome]; a member function that can
    throw returns [outcome A].
    - A member function that mutates [*this] maps the object to the
    mutated object.
    - A [shared_ptr] / [unique_ptr] that may be null is an [option]. *)

From Stdlib Require Import ZArith List String Ascii Bool Lia.
Import ListNotations.

Local Open Scope Z_scope.

(** ** [idx_t] *)

Definition idx_t : Type := Z.

Module Idx.

Definition modulus : Z := 2 ^ 64.

Definition wrap (z : Z) : idx_t := z mod modulus.

(** [a + b] on [uint64_t]. *)
Definition add (a b : idx_t) : idx_t := wrap (a + b).

Definition in_range (z : idx_t) : Prop := 0 <= z < modulus.

End Idx.

(** ** Exceptions *)

Inductive Exception : Type :=
| InternalException (msg : string).

Inductive outcome (A : Type) : Type :=
| Return (a : A)
| Throw (e : Exception).

Arguments Return {A} a.
Arguments Throw {A} e.

Definition bind {A B : Type} (m : outcome A) (k : A -> outcome B) : outcome B :=
  match m with
  | Return a => k a
  | Throw e => Throw e
  end.

Notation "x <- m ;; k" := (bind m (fun x => k))
  (at level 61, m at next level, right associativity).

Definition returns {A : Type} (m : outcome A) : Prop :=
  exists a, m = Return a.

Definition throws {A : Type} (m : outcome A) : Prop :=
  exists e, m = Throw e.

(** ** States of the byte-level automaton *)

(** Modelled from the spec: the enumeration [CSVState] is declared in a header
  that is not part of the sources; the source names only
  [CSVState::EMPTY_LINE].  The other states are the ones the data model of
  the specification lists. *)
Inductive CSVState : Type :=
| EMPTY_LINE
| STANDARD
| FIELD_DELIMITER
| RECORD_SEPARATOR
| QUOTED
| QUOTED_NEWLINE
| ESCAPED
| UNQUOTED_QUOTE
| INVALID_STATE
| DONE.

Module CSVStates.

(** Modelled from the spec: [CSVStates], the running state of the byte-level
    automaton, is declared outside the sources. *)
Record t : Type := mk { current_state : CSVState }.

(** Modelled from the spec: the member [CSVStates::Initialize(CSVState)] is
    defined outside the sources.  "[Initialize()] resets the byte-level
    automaton to its starting state". *)
Definition Initialize (initial : CSVState) (_ : t) : t :=
  {| current_state := initial |}.

End CSVStates.

Module CSVStateMachine.

(** Modelled from the spec: [CSVStateMachine] is declared outside the sources;
    it is "an immutable transition table keyed by (CurrentState, ByteClass)".
    The scanner only keeps a reference to it. *)
Record t : Type := mk { transition_array : CSVState -> Byte.byte -> CSVState }.

End CSVStateMachine.

(** ** [ScannerResult] *)

Module ScannerResult.

(** The references [states] and [state_machine] taken by the constructor are
    kept; [result_position] is the cursor. *)
Record t : Type := mk {
  states : CSVStates.t;
  state_machine : CSVStateMachine.t;
  result_position : idx_t
}.

Definition Size (r : t) : idx_t := result_position r.

Definition Empty (r : t) : bool := result_position r =? 0.

End ScannerResult.

(** ** [ScannerBoundary] *)

Module ScannerBoundary.

(** Modelled from the spec: the class is declared outside the sources.  The
    Boundary is "{file_index, buffer_index, start_offset, end_offset}"; the
    members are named after the accessors the scanner calls ([GetFileIdx],
    [GetBufferIdx], [GetBufferPos], [GetEndPos], [SetEndPos]). *)
Record t : Type := mk {
  file_idx : idx_t;
  buffer_idx : idx_t;
  buffer_pos : idx_t;
  end_pos : idx_t
}.

Definition GetFileIdx (b : t) : idx_t := file_idx b.
Definition GetBufferIdx (b : t) : idx_t := buffer_idx b.
Definition GetBufferPos (b : t) : idx_t := buffer_pos b.
Definition GetEndPos (b : t) : idx_t := end_pos b.

Definition SetEndPos (e : idx_t) (b : t) : t :=
  {| file_idx := file_idx b;
     buffer_idx := buffer_idx b;
     buffer_pos := buffer_pos b;
     end_pos := e |}.

(** Modelled from the spec: [ScannerBoundary::InBoundary(file, buffer, pos)]
    is defined outside the sources.  "true iff file/buffer indices match and
    offset lies in [start, end)". *)
Definition InBoundary (b : t) (file_id buffer_id pos : idx_t) : bool :=
  (file_idx b =? file_id) && (buffer_idx b =? buffer_id)
  && (buffer_pos b <=? pos) && (pos <? end_pos b).

End ScannerBoundary.

(** ** [ScannerPosition] *)

Module ScannerPosition.

Record t : Type := mk {
  pos : idx_t;
  buffer_id : idx_t;
  file_id : idx_t;
  done : bool
}.

(** [return boundary.InBoundary(file_id, buffer_id, pos);] *)
Definition InBoundary (p : t) (boundary : ScannerBoundary.t) : bool :=
  ScannerBoundary.InBoundary boundary (file_id p) (buffer_id p) (pos p).

End ScannerPosition.


(** ** The buffer source *)

Module CSVBufferHandle.

(** The scanner reads [Ptr()] and [actual_size] of a handle. *)
Record t : Type := mk {
  Ptr : list Byte.byte;
  actual_size : idx_t
}.

End CSVBufferHandle.

Module CSVBufferManager.

(** The buffer manager is an external collaborator; the scanner sees it through
    four member functions, which are the fields here.  [GetBuffer] answers a
    null handle as [None]. *)
Record t : Type := mk {
  GetBuffer : idx_t -> idx_t -> option CSVBufferHandle.t;
  FileCount : idx_t;
  Done : bool;
  CachedBufferPerFile : idx_t -> idx_t
}.

End CSVBufferManager.

(** ** [BaseScanner] *)

Module BaseScanner.

(** The members the member functions of the source read and write.  [result]
    is the [ScannerResult] that [ParseChunk()] and [GetResult()] point to once
    a concrete mode overrides them; it is part of the object so that what a
    member function of the base leaves alone can be said. *)
Record t : Type := mk {
  states : CSVStates.t;
  boundary : ScannerBoundary.t;
  pos : ScannerPosition.t;
  buffer_manager : CSVBufferManager.t;
  cur_buffer_handle : option CSVBufferHandle.t;
  buffer_handle_ptr : list Byte.byte;
  state_machine : CSVStateMachine.t;
  initialized : bool;
  result : ScannerResult.t
}.

Definition set_pos (p : ScannerPosition.t) (s : t) : t :=
  {| states := states s;
     boundary := boundary s;
     pos := p;
     buffer_manager := buffer_manager s;
     cur_buffer_handle := cur_buffer_handle s;
     buffer_handle_ptr := buffer_handle_ptr s;
     state_machine := state_machine s;
     initialized := initialized s;
     result := result s |}.

Definition set_states (st : CSVStates.t) (s : t) : t :=
  {| states := st;
     boundary := boundary s;
     pos := pos s;
     buffer_manager := buffer_manager s;
     cur_buffer_handle := cur_buffer_handle s;
     buffer_handle_ptr := buffer_handle_ptr s;
     state_machine := state_machine s;
     initialized := initialized s;
     result := result s |}.

(** The constructor, given the buffer manager and the state machine its two
    pointer arguments point to; what it does with a null pointer is not part
    of this model (lines 32 and 33 assert that there is none).  The member
    [boundary] is initialised from the argument [boundary_p] in the
    initialiser list; the body then clamps the end of [boundary_p], the
    by-value argument, and reads the position from it.
    [None]: the buffer manager answers a null handle, which line 36
    dereferences.
    The members without an initialiser take their defaults: automaton at the
    empty line, [done] and [initialized] false, an empty result. *)
Definition new (buffer_manager_p : CSVBufferManager.t)
    (state_machine_p : CSVStateMachine.t)
    (boundary_p : ScannerBoundary.t) : option t :=
  match CSVBufferManager.GetBuffer buffer_manager_p
          (ScannerBoundary.GetFileIdx boundary_p)
          (ScannerBoundary.GetBufferIdx boundary_p) with
  | Some h =>
      let boundary_p' :=
        ScannerBoundary.SetEndPos
          (if ScannerBoundary.GetEndPos boundary_p >? CSVBufferHandle.actual_size h
           then CSVBufferHandle.actual_size h
           else ScannerBoundary.GetEndPos boundary_p)
          boundary_p in
      let st := CSVStates.mk EMPTY_LINE in
      Some {| states := st;
              boundary := boundary_p;
              pos := {| ScannerPosition.pos := ScannerBoundary.GetBufferPos boundary_p';
                        ScannerPosition.buffer_id := ScannerBoundary.GetBufferIdx boundary_p';
                        ScannerPosition.file_id := ScannerBoundary.GetFileIdx boundary_p';
                        ScannerPosition.done := false |};
              buffer_manager := buffer_manager_p;
              cur_buffer_handle := Some h;
              buffer_handle_ptr := CSVBufferHandle.Ptr h;
              state_machine := state_machine_p;
              initialized := false;
              result := ScannerResult.mk st state_machine_p 0 |}
  | None => None
  end.

Definition Finished_message : string :=
  "We can't have a buffer manager that scans to infinity with more than one file".

Definition Finished (s : t) : outcome bool :=
  if ScannerPosition.done (pos s) then Return true
  else
    match cur_buffer_handle s with
    | None => Return true
    | Some h =>
        if CSVBufferManager.FileCount (buffer_manager s) >? 1
        then Throw (InternalException Finished_message)
        else if negb (CSVBufferManager.Done (buffer_manager s))
        then Return false
        else if negb (ScannerPosition.buffer_id (pos s)
                      =? CSVBufferManager.CachedBufferPerFile (buffer_manager s)
                           (ScannerPosition.file_id (pos s)))
        then Return false
        else Return (Idx.add (ScannerPosition.pos (pos s)) 1
                     =? CSVBufferHandle.actual_size h)
    end.

(** [pos.buffer_id = boundary.GetBufferIdx(); pos.pos = boundary.GetBufferPos();] *)
Definition Reset (s : t) : t :=
  set_pos {| ScannerPosition.pos := ScannerBoundary.GetBufferPos (boundary s);
             ScannerPosition.buffer_id := ScannerBoundary.GetBufferIdx (boundary s);
             ScannerPosition.file_id := ScannerPosition.file_id (pos s);
             ScannerPosition.done := ScannerPosition.done (pos s) |} s.

Definition ParseChunk (s : t) : outcome (t * ScannerResult.t) :=
  Throw (InternalException "ParseChunk() from CSV Base Scanner is mot implemented").

Definition GetResult (s : t) : outcome (t * ScannerResult.t) :=
  Throw (InternalException "GetResult() from CSV Base Scanner is mot implemented").

(** [states.Initialize(CSVState::EMPTY_LINE);] *)
Definition Initialize (s : t) : t :=
  set_states (CSVStates.Initialize EMPTY_LINE (states s)) s.

Definition Process (s : t) : outcome t :=
  Throw (InternalException "Process() from CSV Base Scanner is mot implemented").

Definition FinalizeChunkProcess (s : t) : outcome t :=
  Throw (InternalException "FinalizeChunkProcess() from CSV Base Scanner is mot implemented").

(** The member functions a concrete mode overrides; [ParseChunkInternal]
    reaches [Process] and [FinalizeChunkProcess] through this table. *)
Record Mode : Type := mkMode {
  mParseChunk : t -> outcome (t * ScannerResult.t);
  mGetResult : t -> outcome (t * ScannerResult.t);
  mProcess : t -> outcome t;
  mFinalizeChunkProcess : t -> outcome t
}.

(** The base class itself: nothing overridden. *)
Definition base : Mode :=
  {| mParseChunk := ParseChunk;
     mGetResult := GetResult;
     mProcess := Process;
     mFinalizeChunkProcess := FinalizeChunkProcess |}.

Definition ParseChunkInternal (m : Mode) (s : t) : outcome t :=
  let s1 := if negb (initialized s) then Initialize s else s in
  s2 <- mProcess m s1 ;;
  mFinalizeChunkProcess m s2.

(** *** [ColumnTypesError] *)

(** [case_insensitive_map_t<idx_t>] is an unordered map from column names to
    type indices whose key comparison ignores case.  It is an association
    list in the order in which the map iterates; erasing a key keeps the
    order of the entries that stay.  The key comparison of the map type is
    declared outside the sources and is the parameter [key_eq]. *)
Definition column_map : Type := list (string * idx_t).

Definition dquote : string := String "034"%char EmptyString.

(** [std::string::pop_back] (the empty string is left as it is). *)
Fixpoint pop_back (s : string) : string :=
  match s with
  | EmptyString => EmptyString
  | String c EmptyString => EmptyString
  | String c rest => String c (pop_back rest)
  end.

Section ColumnTypes.

Variable key_eq : string -> string -> bool.

Definition find (m : column_map) (k : string) : option (string * idx_t) :=
  List.find (fun kv => key_eq (fst kv) k) m.

(** [erase(key)]: the entry with an equivalent key goes; the keys of a map
    are pairwise different, so that is at most one entry. *)
Definition erase (m : column_map) (k : string) : column_map :=
  List.filter (fun kv => negb (key_eq (fst kv) k)) m.

(** The first loop: every discovered name found in the map is erased. *)
Fixpoint erase_found (m : column_map) (names : list string) : column_map :=
  match names with
  | [] => m
  | n :: rest =>
      match find m n with
      | Some _ => erase_found (erase m n) rest
      | None => erase_found m rest
      end
  end.

(** The second loop appends to [exception], for every entry left, its key
    between double quotes and a comma. *)
Definition append_columns (exception : string) (m : column_map) : string :=
  fold_left
    (fun acc col => (acc ++ (dquote ++ fst col ++ (dquote ++ ",")))%string)
    m exception.

Definition ColumnTypesError (sql_types_per_column : column_map)
    (names : list string) : string :=
  let left_over := erase_found sql_types_per_column names in
  match left_over with
  | [] => EmptyString
  | _ :: _ =>
      let exception :=
        append_columns "COLUMN_TYPES error: Columns with names: " left_over in
      (pop_back exception ++ " do not exist in the CSV File")%string
  end.

End ColumnTypes.

(** [return *state_machine;] *)
Definition GetStateMachine (s : t) : CSVStateMachine.t := state_machine s.

End BaseScanner.

(** * Function sets ([function_set.cpp]) *)

Module FunctionSet.

Section Lookup.

(** What the lookups use and the sources do not define: the argument types
    with their comparison ([operator!=] is its negation), the functions with
    their [arguments], [DConstants::INVALID_INDEX], the binder (it answers an
    index and writes [error]), [GetFunctionByOffset] and the text of the
    exception ([name], the arguments and [error] formatted). *)
Variable LogicalType : Type.
Variable type_eqb : LogicalType -> LogicalType -> bool.
Variable F : Type.
Variable arguments : F -> list LogicalType.
Variable INVALID_INDEX : idx_t.
Variable BindFunction : string -> list F -> list LogicalType -> idx_t * string.
Variable GetFunctionByOffset : list F -> idx_t -> F.
Variable failed_to_find : string -> list LogicalType -> string -> string.

(** [FunctionSet<T>]: the name and the vector [functions]. *)
Record t : Type := mk {
  name : string;
  functions : list F
}.

(** [ScalarFunctionSet::GetFunctionByArguments]. *)
Definition ScalarGetFunctionByArguments (set : t) (args : list LogicalType) : outcome F :=
  let (index, error) := BindFunction (name set) (functions set) args in
  if index =? INVALID_INDEX
  then Throw (InternalException (failed_to_find (name set) args error))
  else Return (GetFunctionByOffset (functions set) index).

(** The inner loop of the aggregate lookup: [k] runs over [arguments] and
    stops at the first [arguments[k] != func.arguments[k]].  The loop is only
    entered when [func] has more arguments, so the second list does not end
    first. *)
Fixpoint is_prefix (args fargs : list LogicalType) : bool :=
  match args, fargs with
  | [], _ => true
  | a :: args', b :: fargs' =>
      if negb (type_eqb a b) then false else is_prefix args' fargs'
  | _ :: _, [] => false
  end.

(** The outer loop: the first function of more arguments of which the given
    ones are a prefix. *)
Fixpoint find_prefix (funcs : list F) (args : list LogicalType) : option F :=
  match funcs with
  | [] => None
  | func :: rest =>
      if (List.length (arguments func) <=? List.length args)%nat
      then find_prefix rest args
      else if is_prefix args (arguments func)
      then Some func
      else find_prefix rest args
  end.

(** [AggregateFunctionSet::GetFunctionByArguments]. *)
Definition AggregateGetFunctionByArguments (set : t) (args : list LogicalType) : outcome F :=
  let (index, error) := BindFunction (name set) (functions set) args in
  if index =? INVALID_INDEX
  then
    match find_prefix (functions set) args with
    | Some func => Return func
    | None => Throw (InternalException (failed_to_find (name set) args error))
    end
  else Return (GetFunctionByOffset (functions set) index).

(** [TableFunctionSet::GetFunctionByArguments]. *)
Definition TableGetFunctionByArguments (set : t) (args : list LogicalType) : outcome F :=
  let (index, error) := BindFunction (name set) (functions set) args in
  if index =? INVALID_INDEX
  then Throw (InternalException (failed_to_find (name set) args error))
  else Return (GetFunctionByOffset (functions set) index).

(** The given arguments are the first arguments of [func], and [func] has
    more. *)
Definition proper_prefix (args : list LogicalType) (func : F) : Prop :=
  (List.length args < List.length (arguments func))%nat /\
  Forall2 (fun a b => type_eqb a b = true) args
    (firstn (List.length args) (arguments func)).

End Lookup.

End FunctionSet.

(** * The inner merge join ([merge_join_inner.cpp]) *)

Module MergeJoinInner.

(** [array[i] = x]; the source writes inside the arrays it is handed, and a
    write outside is left out here. *)
Fixpoint store (i : nat) (x : nat) (a : list nat) : list nat :=
  match a, i with
  | [], _ => []
  | _ :: a', O => x :: a'
  | y :: a', S i' => y :: store i' x a'
  end.

Section Join.

(** The element type [T] of the template with its comparison operators
    ([operators::LessThan], [LessThanEquals], [GreaterThan], [Equals]), and
    [STANDARD_VECTOR_SIZE]; none of them is defined in the sources.  [dflt] is
    what a read outside an array answers. *)
Variable T : Type.
Variable dflt : T.
Variable LessThan_op : T -> T -> bool.
Variable LessThanEquals_op : T -> T -> bool.
Variable GreaterThan_op : T -> T -> bool.
Variable Equals_op : T -> T -> bool.
Variable STANDARD_VECTOR_SIZE : nat.

(** [MergeInfo]: the members the operations use.  [data] is [v.data].  The
    counters are [size_t]; they are natural numbers here, every increment of
    the source being guarded by a bound that is itself a [size_t].  Both
    selection vectors are present, as the source asserts. *)
Record MergeInfo : Type := mkInfo {
  data : list T;
  count : nat;
  sel_vector : list nat;
  pos : nat;
  result : list nat
}.

Definition set_pos (p : nat) (m : MergeInfo) : MergeInfo :=
  {| data := data m; count := count m; sel_vector := sel_vector m;
     pos := p; result := result m |}.

Definition set_result (res : list nat) (m : MergeInfo) : MergeInfo :=
  {| data := data m; count := count m; sel_vector := sel_vector m;
     pos := pos m; result := res |}.

(** [m.sel_vector[p]] and [data[m.sel_vector[p]]]. *)
Definition sel (m : MergeInfo) (p : nat) : nat := nth p (sel_vector m) O.

Definition value (m : MergeInfo) (p : nat) : T := nth (sel m p) (data m) dflt.

(** [l.result[result_count] = l.sel_vector[l.pos];
     r.result[result_count] = r.sel_vector[r.pos];] *)
Definition emit (result_count : nat) (l r : MergeInfo) : MergeInfo * MergeInfo :=
  (set_result (store result_count (sel l (pos l)) (result l)) l,
   set_result (store result_count (sel r (pos r)) (result r)) r).

(** The [while (true)] of [LessThan::Operation] and
    [LessThanEquals::Operation], which differ in the comparison only.  [None]:
    the fuel is used up. *)
Fixpoint less_loop (cmp : T -> T -> bool) (fuel : nat) (l r : MergeInfo)
    (result_count : nat) : option (MergeInfo * MergeInfo * nat) :=
  match fuel with
  | O => None
  | S fuel' =>
      if (pos l <? count l)%nat && cmp (value l (pos l)) (value r (pos r))
      then
        let (l1, r1) := emit result_count l r in
        let result_count1 := S result_count in
        let l2 := set_pos (S (pos l1)) l1 in
        if (result_count1 =? STANDARD_VECTOR_SIZE)%nat
        then Some (l2, r1, result_count1)
        else less_loop cmp fuel' l2 r1 result_count1
      else
        let l1 := set_pos O l in
        let r1 := set_pos (S (pos r)) r in
        if (pos r1 =? count r1)%nat
        then Some (l1, r1, result_count)
        else less_loop cmp fuel' l1 r1 result_count
  end.

(** Turns of the loop that are enough from [l.pos], [r.pos]. *)
Definition less_fuel (l r : MergeInfo) : nat :=
  S ((count r - pos r) * S (count l) + (count l - pos l)).

Definition less_Operation (cmp : T -> T -> bool) (l r : MergeInfo)
  : option (MergeInfo * MergeInfo * nat) :=
  if (count r <=? pos r)%nat then Some (l, r, O)
  else less_loop cmp (less_fuel l r) l r O.

(** [MergeJoinInner::LessThan::Operation<T>]. *)
Definition LessThan_Operation (l r : MergeInfo) : option (MergeInfo * MergeInfo * nat) :=
  less_Operation LessThan_op l r.

(** [MergeJoinInner::LessThanEquals::Operation<T>]. *)
Definition LessThanEquals_Operation (l r : MergeInfo)
  : option (MergeInfo * MergeInfo * nat) :=
  less_Operation LessThanEquals_op l r.

(** [while (r.pos > 0 && Equals(lvalue, rdata[r.sel_vector[r.pos - 1]])) r.pos--;]
    answers the new [r.pos]. *)
Fixpoint back_up (lvalue : T) (r : MergeInfo) (rpos : nat) : nat :=
  match rpos with
  | O => O
  | S p => if Equals_op lvalue (value r p) then back_up lvalue r p else S p
  end.

(** The [while (true)] of [Equality::Operation]. *)
Fixpoint equality_loop (fuel : nat) (l r : MergeInfo) (result_count : nat)
  : option (MergeInfo * MergeInfo * nat) :=
  match fuel with
  | O => None
  | S fuel' =>
      if (pos r =? count r)%nat || LessThan_op (value l (pos l)) (value r (pos r))
      then
        let l1 := set_pos (S (pos l)) l in
        if (count l1 <=? pos l1)%nat
        then Some (l1, r, result_count)
        else
          let r1 := set_pos (back_up (value l1 (pos l1)) r (pos r)) r in
          equality_loop fuel' l1 r1 result_count
      else if GreaterThan_op (value l (pos l)) (value r (pos r))
      then equality_loop fuel' l (set_pos (S (pos r)) r) result_count
      else
        let (l1, r1) := emit result_count l r in
        let result_count1 := S result_count in
        let r2 := set_pos (S (pos r1)) r1 in
        if (result_count1 =? STANDARD_VECTOR_SIZE)%nat
        then Some (l1, r2, result_count1)
        else equality_loop fuel' l1 r2 result_count1
  end.

Definition equality_fuel (l r : MergeInfo) : nat :=
  S ((count l - pos l) * S (count r) + (count r - pos r)).

(** [MergeJoinInner::Equality::Operation<T>]. *)
Definition Equality_Operation (l r : MergeInfo) : option (MergeInfo * MergeInfo * nat) :=
  if (count l <=? pos l)%nat then Some (l, r, O)
  else equality_loop (equality_fuel l r) l r O.

(** The members an operation leaves alone: the data, the count and the
    selection vector; the result array keeps its length. *)
Definition same_input (m m' : MergeInfo) : Prop :=
  data m' = data m /\ count m' = count m /\
  sel_vector m' = sel_vector m /\
  List.length (result m') = List.length (result m).

(** Entry [i] of the two result arrays is a pair of selected tuples, the right
    one at or after the cursor [r] came with, for which [cmp] holds. *)
Definition joined (cmp : T -> T -> bool) (l r l' r' : MergeInfo) (i : nat) : Prop :=
  exists lp rp,
    (lp < count l)%nat /\ (pos r <= rp < count r)%nat /\
    nth i (result l') O = sel l lp /\
    nth i (result r') O = sel r rp /\
    cmp (value l lp) (value r rp) = true.

(** Entry [i] of the two result arrays is a pair of selected tuples that are
    neither less nor greater than one another. *)
Definition matched (l r l' r' : MergeInfo) (i : nat) : Prop :=
  exists lp rp,
    (pos l <= lp < count l)%nat /\ (rp < count r)%nat /\
    nth i (result l') O = sel l lp /\
    nth i (result r') O = sel r rp /\
    LessThan_op (value l lp) (value r rp) = false /\
    GreaterThan_op (value l lp) (value r rp) = false.

(** The left tuples for which [cmp] holds with a right tuple come first, as
    they do when the left side is sorted. *)
Definition left_sorted_for (cmp : T -> T -> bool) (l r : MergeInfo) : Prop :=
  forall lp lp' rp,
    (lp' <= lp < count l)%nat -> (rp < count r)%nat ->
    cmp (value l lp) (value r rp) = true ->
    cmp (value l lp') (value r rp) = true.

(** The three operators of [Equality] compare by a rank, as the operators of
    an ordered type do. *)
Definition ordered_by (rank : T -> Z) : Prop :=
  (forall a b, LessThan_op a b = (rank a <? rank b)) /\
  (forall a b, GreaterThan_op a b = (rank b <? rank a)) /\
  (forall a b, Equals_op a b = (rank a =? rank b)).

(** The selected tuples of a side go up with the position. *)
Definition sorted_by (rank : T -> Z) (m : MergeInfo) : Prop :=
  forall p q, (p <= q < count m)%nat -> rank (value m p) <= rank (value m q).

End Join.

End MergeJoinInner.

(** ** What [ColumnTypesError] is to report *)

Module ColumnTypesSpec.

Section Unmatched.

Variable key_eq : string -> string -> bool.

(** The declared name [k] occurs among the discovered names. *)
Definition occurs_among (k : string) (names : list string) : bool :=
  existsb (key_eq k) names.

(** The declared names that do not occur among the discovered names, in the
    order of the map. *)
Definition unmatched (m : BaseScanner.column_map) (names : list string) : list string :=
  List.filter (fun k => negb (occurs_among k names)) (map fst m).

End Unmatched.

Definition quoted (k : string) : string :=
  (BaseScanner.dquote ++ k ++ BaseScanner.dquote)%string.

(** One message for all the names: they are quoted and separated by commas. *)
Definition mismatch_message (ks : list string) : string :=
  ("COLUMN_TYPES error: Columns with names: "
   ++ String.concat "," (map quoted ks)
   ++ " do not exist in the CSV File")%string.

End ColumnTypesSpec.

(** A comparison of names that ignores the case of the ASCII letters, to run
    [ColumnTypesError] with. *)
Definition to_lower (c : ascii) : ascii :=
  let n := N_of_ascii c in
  if ((65 <=? n) && (n <=? 90))%N then ascii_of_N (n + 32) else c.

Fixpoint Lower (s : string) : string :=
  match s with
  | EmptyString => EmptyString
  | String c rest => String (to_lower c) (Lower rest)
  end.

Definition ci_equal (a b : string) : bool :=
  String.eqb (Lower a) (Lower b).

(** ** Concrete inputs *)

Module Sample.

Definition handle : CSVBufferHandle.t :=
  {| CSVBufferHandle.Ptr := [Byte.x61; Byte.x2c; Byte.x62; Byte.x0a];
     CSVBufferHandle.actual_size := 4 |}.

(** One file of one buffer, read to its end. *)
Definition one_file : CSVBufferManager.t :=
  {| CSVBufferManager.GetBuffer :=
       fun file buffer => if (file =? 0) && (buffer =? 0) then Some handle else None;
     CSVBufferManager.FileCount := 1;
     CSVBufferManager.Done := true;
     CSVBufferManager.CachedBufferPerFile := fun _ => 0 |}.


(** The same buffers behind a manager that reports two files. *)
Definition two_files : CSVBufferManager.t :=
  {| CSVBufferManager.GetBuffer := CSVBufferManager.GetBuffer one_file;
     CSVBufferManager.FileCount := 2;
     CSVBufferManager.Done := true;
     CSVBufferManager.CachedBufferPerFile := fun _ => 0 |}.

Definition machine : CSVStateMachine.t :=
  {| CSVStateMachine.transition_array := fun _ _ => STANDARD |}.

(** A boundary that asks for more than the buffer holds. *)
Definition wide : ScannerBoundary.t :=
  {| ScannerBoundary.file_idx := 0;
     ScannerBoundary.buffer_idx := 0;
     ScannerBoundary.buffer_pos := 0;
     ScannerBoundary.end_pos := 100 |}.

Definition scanner_of (bm : CSVBufferManager.t) (b : ScannerBoundary.t) : BaseScanner.t :=
  {| BaseScanner.states := CSVStates.mk EMPTY_LINE;
     BaseScanner.boundary := b;
     BaseScanner.pos :=
       {| ScannerPosition.pos := ScannerBoundary.buffer_pos b;
          ScannerPosition.buffer_id := ScannerBoundary.buffer_idx b;
          ScannerPosition.file_id := ScannerBoundary.file_idx b;
          ScannerPosition.done := false |};
     BaseScanner.buffer_manager := bm;
     BaseScanner.cur_buffer_handle := Some handle;
     BaseScanner.buffer_handle_ptr := CSVBufferHandle.Ptr handle;
     BaseScanner.state_machine := machine;
     BaseScanner.initialized := false;
     BaseScanner.result := ScannerResult.mk (CSVStates.mk EMPTY_LINE) machine 0 |}.


(** A scanner whose position has been marked done, three bytes into the buffer. *)
Definition finished_scanner : BaseScanner.t :=
  BaseScanner.set_pos
    {| ScannerPosition.pos := 3;
       ScannerPosition.buffer_id := 0;
       ScannerPosition.file_id := 0;
       ScannerPosition.done := true |}
    (scanner_of one_file wide).

(** A concrete mode: [Process] moves the automaton one step along
    empty line, standard, record separator; nothing is left to finalize. *)
Definition stepping : BaseScanner.Mode :=
  {| BaseScanner.mParseChunk := BaseScanner.ParseChunk;
     BaseScanner.mGetResult := BaseScanner.GetResult;
     BaseScanner.mProcess := fun s =>
       Return (BaseScanner.set_states
                 (CSVStates.mk
                    match CSVStates.current_state (BaseScanner.states s) with
                    | EMPTY_LINE => STANDARD
                    | _ => RECORD_SEPARATOR
                    end) s);
     BaseScanner.mFinalizeChunkProcess := fun s => Return s |}.

(** A boundary inside the buffer, and two scanners standing at its end: they
    differ in the boundary, the automaton, the flag and the result. *)
Definition narrow : ScannerBoundary.t :=
  {| ScannerBoundary.file_idx := 0;
     ScannerBoundary.buffer_idx := 0;
     ScannerBoundary.buffer_pos := 0;
     ScannerBoundary.end_pos := 2 |}.

Definition at_end_of_narrow : BaseScanner.t :=
  BaseScanner.set_pos
    {| ScannerPosition.pos := 2;
       ScannerPosition.buffer_id := 0;
       ScannerPosition.file_id := 0;
       ScannerPosition.done := false |}
    (scanner_of one_file narrow).

Definition at_end_of_narrow_other : BaseScanner.t :=
  {| BaseScanner.states := CSVStates.mk QUOTED;
     BaseScanner.boundary := wide;
     BaseScanner.pos := BaseScanner.pos at_end_of_narrow;
     BaseScanner.buffer_manager := one_file;
     BaseScanner.cur_buffer_handle := Some handle;
     BaseScanner.buffer_handle_ptr := CSVBufferHandle.Ptr handle;
     BaseScanner.state_machine := machine;
     BaseScanner.initialized := true;
     BaseScanner.result := ScannerResult.mk (CSVStates.mk QUOTED) machine 2 |}.

(** Declared types for three columns. *)
Definition declared : BaseScanner.column_map :=
  [("id"%string, 0); ("Name"%string, 1); ("zip"%string, 2)].

End Sample.

(** A set of three aggregate functions over three argument types, and a
    binder that finds no function. *)
Module FunctionSample.

Inductive SqlType : Type := INTEGER | VARCHAR | DOUBLE.

Definition SqlType_eqb (a b : SqlType) : bool :=
  match a, b with
  | INTEGER, INTEGER | VARCHAR, VARCHAR | DOUBLE, DOUBLE => true
  | _, _ => false
  end.

Definition Func : Type := (string * list SqlType)%type.

Definition invalid : idx_t := Idx.modulus - 1.

Definition no_binding (_ : string) (_ : list Func) (_ : list SqlType) : idx_t * string :=
  (invalid, "no function matches"%string).

Definition by_offset (fs : list Func) (i : idx_t) : Func :=
  nth (Z.to_nat i) fs (EmptyString, []).

Definition text (name : string) (_ : list SqlType) (error : string) : string :=
  ("Failed to find function " ++ name ++ ": " ++ error)%string.

Definition quantile : FunctionSet.t Func :=
  {| FunctionSet.name := "quantile";
     FunctionSet.functions :=
       [("q1"%string, [DOUBLE]);
        ("q2"%string, [DOUBLE; INTEGER]);
        ("q3"%string, [DOUBLE; INTEGER; VARCHAR]);
        ("q4"%string, [DOUBLE; INTEGER; DOUBLE])] |}.

Definition lookup (set : FunctionSet.t Func) (args : list SqlType) : outcome Func :=
  FunctionSet.AggregateGetFunctionByArguments SqlType SqlType_eqb Func snd invalid
    no_binding by_offset text set args.

End FunctionSample.

(** Two sorted columns of integers, joined into vectors of eight entries. *)
Module MergeSample.

Definition column (values : list Z) (at_pos : nat) : MergeJoinInner.MergeInfo Z :=
  {| MergeJoinInner.data := values;
     MergeJoinInner.count := List.length values;
     MergeJoinInner.sel_vector := seq 0 (List.length values);
     MergeJoinInner.pos := at_pos;
     MergeJoinInner.result := repeat O 8 |}.

Definition with_result (res : list nat) (m : MergeJoinInner.MergeInfo Z)
  : MergeJoinInner.MergeInfo Z :=
  MergeJoinInner.set_result Z res m.

Definition left : MergeJoinInner.MergeInfo Z := column [1; 2; 3; 5] 0.

Definition right : MergeJoinInner.MergeInfo Z := column [2; 4] 0.

Definition LessThan (l r : MergeJoinInner.MergeInfo Z) :=
  MergeJoinInner.LessThan_Operation Z 0 Z.ltb 8 l r.

Definition LessThanEquals (l r : MergeJoinInner.MergeInfo Z) :=
  MergeJoinInner.LessThanEquals_Operation Z 0 Z.leb 8 l r.

Definition Equality (l r : MergeJoinInner.MergeInfo Z) :=
  MergeJoinInner.Equality_Operation Z 0 Z.ltb Z.gtb Z.eqb 8 l r.

(** What [LessThan] leaves of [left] and [right]. *)
Definition left_after : MergeJoinInner.MergeInfo Z :=
  with_result [0; 0; 1; 2; 0; 0; 0; 0]%nat (column [1; 2; 3; 5] 0).

Definition right_after : MergeJoinInner.MergeInfo Z :=
  with_result [0; 1; 1; 1; 0; 0; 0; 0]%nat (column [2; 4] 2).

(** Two columns with repeated values for the equality join, and what it
    leaves of them. *)
Definition left_eq : MergeJoinInner.MergeInfo Z := column [1; 2; 2; 3; 5] 0.

Definition right_eq : MergeJoinInner.MergeInfo Z := column [2; 2; 4; 5] 0.

Definition left_eq_after : MergeJoinInner.MergeInfo Z :=
  with_result [1; 1; 2; 2; 4; 0; 0; 0]%nat (column [1; 2; 2; 3; 5] 5).

Definition right_eq_after : MergeJoinInner.MergeInfo Z :=
  with_result [0; 1; 0; 1; 3; 0; 0; 0]%nat (column [2; 2; 4; 5] 4).

End MergeSample.

(** * Properties *)

(** ** Arithmetic on [idx_t] *)

Lemma Idx_add_small a b :
  0 <= a -> 0 <= b -> a + b < Idx.modulus -> Idx.add a b = a + b.
Proof.
  intros Ha Hb Hlt. unfold Idx.add, Idx.wrap.
  apply Z.mod_small. lia.
Qed.

Lemma Idx_add_in_range a b : Idx.in_range (Idx.add a b).
Proof.
  unfold Idx.in_range, Idx.add, Idx.wrap.
  apply Z.mod_pos_bound. reflexivity.
Qed.

Lemma throws_not_returns {A : Type} (m : outcome A) :
  throws m -> ~ returns m.
Proof.
  intros [e He] [a Ha]. rewrite He in Ha. discriminate Ha.
Qed.

(** ** [ScannerResult] *)

(** C9: [Size()] is the [result_position] cursor, and [Empty()] holds exactly
    when [Size()] is 0. *)
Theorem Size_Empty_result_position (r : ScannerResult.t) :
  ScannerResult.Size r = ScannerResult.result_position r /\
  (ScannerResult.Empty r = true <-> ScannerResult.Size r = 0).
Proof.
  split; [reflexivity|].
  unfold ScannerResult.Empty, ScannerResult.Size.
  apply Z.eqb_eq.
Qed.

(** ** [ScannerPosition] *)

(** C8: a position is in a boundary exactly when its file and buffer indices
    are the boundary's and its offset lies in [[start, end)]. *)
Theorem InBoundary_iff (p : ScannerPosition.t) (b : ScannerBoundary.t) :
  ScannerPosition.InBoundary p b = true <->
  ScannerPosition.file_id p = ScannerBoundary.file_idx b /\
  ScannerPosition.buffer_id p = ScannerBoundary.buffer_idx b /\
  ScannerBoundary.buffer_pos b <= ScannerPosition.pos p < ScannerBoundary.end_pos b.
Proof.
  unfold ScannerPosition.InBoundary, ScannerBoundary.InBoundary.
  rewrite !andb_true_iff, !Z.eqb_eq, Z.leb_le, Z.ltb_lt.
  intuition auto.
Qed.

(** ** [BaseScanner::Finished] *)



(** At the last byte of the only buffer of the only file the scan is over;
    one byte earlier it is not. *)
Example Finished_at_last_byte :
  BaseScanner.Finished
    (BaseScanner.set_pos (ScannerPosition.mk 3 0 0 false)
       (Sample.scanner_of Sample.one_file Sample.wide)) = Return true /\
  BaseScanner.Finished
    (BaseScanner.set_pos (ScannerPosition.mk 2 0 0 false)
       (Sample.scanner_of Sample.one_file Sample.wide)) = Return false.
Proof. split; reflexivity. Qed.

(** C2: with the done flag unset and a buffer handle present, [Finished()] on
    a buffer manager of more than one file throws the internal exception; it
    returns no boolean. *)
Theorem Finished_throws_on_several_files (s : BaseScanner.t) (h : CSVBufferHandle.t) :
  ScannerPosition.done (BaseScanner.pos s) = false ->
  BaseScanner.cur_buffer_handle s = Some h ->
  1 < CSVBufferManager.FileCount (BaseScanner.buffer_manager s) ->
  BaseScanner.Finished s = Throw (InternalException BaseScanner.Finished_message) /\
  ~ returns (BaseScanner.Finished s).
Proof.
  intros Hdone Hhandle Hfiles.
  assert (Hthrow : BaseScanner.Finished s
                   = Throw (InternalException BaseScanner.Finished_message)).
  { unfold BaseScanner.Finished. rewrite Hdone, Hhandle.
    apply Z.gtb_lt in Hfiles. rewrite Hfiles. reflexivity. }
  split; [exact Hthrow|].
  apply throws_not_returns. eexists. exact Hthrow.
Qed.

Lemma Finished_throws_on_several_files_witness :
  BaseScanner.Finished (Sample.scanner_of Sample.two_files Sample.wide)
  = Throw (InternalException BaseScanner.Finished_message) /\
  ~ returns (BaseScanner.Finished (Sample.scanner_of Sample.two_files Sample.wide)).
Proof.
  apply (Finished_throws_on_several_files
           (Sample.scanner_of Sample.two_files Sample.wide) Sample.handle).
  - reflexivity.
  - reflexivity.
  - cbn. lia.
Defined.

(** ** [BaseScanner::Reset] *)

Lemma Reset_frame (s : BaseScanner.t) :
  BaseScanner.states (BaseScanner.Reset s) = BaseScanner.states s /\
  BaseScanner.boundary (BaseScanner.Reset s) = BaseScanner.boundary s /\
  BaseScanner.buffer_manager (BaseScanner.Reset s) = BaseScanner.buffer_manager s /\
  BaseScanner.cur_buffer_handle (BaseScanner.Reset s) = BaseScanner.cur_buffer_handle s /\
  BaseScanner.buffer_handle_ptr (BaseScanner.Reset s) = BaseScanner.buffer_handle_ptr s /\
  BaseScanner.state_machine (BaseScanner.Reset s) = BaseScanner.state_machine s /\
  BaseScanner.initialized (BaseScanner.Reset s) = BaseScanner.initialized s /\
  BaseScanner.result (BaseScanner.Reset s) = BaseScanner.result s.
Proof. repeat split. Qed.

(** C5: [Reset()] puts the position at the boundary's buffer index and start
    offset and leaves the result accumulator as it was; running it twice is
    running it once. *)
Theorem Reset_rewinds_and_is_idempotent (s : BaseScanner.t) :
  ScannerPosition.buffer_id (BaseScanner.pos (BaseScanner.Reset s))
  = ScannerBoundary.buffer_idx (BaseScanner.boundary s) /\
  ScannerPosition.pos (BaseScanner.pos (BaseScanner.Reset s))
  = ScannerBoundary.buffer_pos (BaseScanner.boundary s) /\
  BaseScanner.result (BaseScanner.Reset s) = BaseScanner.result s /\
  BaseScanner.Reset (BaseScanner.Reset s) = BaseScanner.Reset s.
Proof.
  destruct s as [st b p bm h ptr sm ini r].
  repeat split.
Qed.

(** After work has moved the position and filled the result, [Reset()] goes
    back to offset 0 of buffer 0 and the result still holds its entries. *)
Example Reset_after_work :
  let s :=
    BaseScanner.mk (CSVStates.mk QUOTED) Sample.wide (ScannerPosition.mk 3 7 0 false)
      Sample.one_file (Some Sample.handle) (CSVBufferHandle.Ptr Sample.handle)
      Sample.machine true
      (ScannerResult.mk (CSVStates.mk QUOTED) Sample.machine 2) in
  BaseScanner.pos (BaseScanner.Reset s) = ScannerPosition.mk 0 0 0 false /\
  ScannerResult.Size (BaseScanner.result (BaseScanner.Reset s)) = 2.
Proof. split; reflexivity. Qed.

(** C10: [Reset()] leaves the file index and the done flag of the position as
    they were; a scanner whose position is done is still finished after
    [Reset()]. *)
Theorem Reset_keeps_file_and_done (s : BaseScanner.t) :
  ScannerPosition.file_id (BaseScanner.pos (BaseScanner.Reset s))
  = ScannerPosition.file_id (BaseScanner.pos s) /\
  ScannerPosition.done (BaseScanner.pos (BaseScanner.Reset s))
  = ScannerPosition.done (BaseScanner.pos s) /\
  (ScannerPosition.done (BaseScanner.pos s) = true ->
   BaseScanner.Finished (BaseScanner.Reset s) = Return true).
Proof.
  split; [reflexivity|]. split; [reflexivity|].
  intros Hdone. unfold BaseScanner.Finished.
  cbn [BaseScanner.Reset BaseScanner.set_pos BaseScanner.pos ScannerPosition.done].
  rewrite Hdone. reflexivity.
Qed.

Lemma Reset_keeps_file_and_done_witness :
  BaseScanner.Finished (BaseScanner.Reset Sample.finished_scanner) = Return true.
Proof.
  apply (Reset_keeps_file_and_done Sample.finished_scanner).
  reflexivity.
Defined.

Example Reset_of_finished_scanner :
  BaseScanner.Finished Sample.finished_scanner = Return true /\
  BaseScanner.Finished (BaseScanner.Reset Sample.finished_scanner) = Return true /\
  ScannerPosition.pos (BaseScanner.pos (BaseScanner.Reset Sample.finished_scanner)) = 0.
Proof. repeat split. Qed.

(** ** The member functions the base leaves to the modes *)

(** C6: [ParseChunk()], [GetResult()], [Process()] and
    [FinalizeChunkProcess()] of the base throw on every scanner; none of them
    returns. *)
Theorem base_operations_throw (s : BaseScanner.t) :
  (throws (BaseScanner.ParseChunk s) /\ ~ returns (BaseScanner.ParseChunk s)) /\
  (throws (BaseScanner.GetResult s) /\ ~ returns (BaseScanner.GetResult s)) /\
  (throws (BaseScanner.Process s) /\ ~ returns (BaseScanner.Process s)) /\
  (throws (BaseScanner.FinalizeChunkProcess s)
   /\ ~ returns (BaseScanner.FinalizeChunkProcess s)).
Proof.
  assert (Hthrow : forall (A : Type) (e : Exception),
             throws (@Throw A e) /\ ~ returns (@Throw A e)).
  { intros A e.
    assert (Ht : throws (@Throw A e)) by (exists e; reflexivity).
    split; [exact Ht | exact (throws_not_returns _ Ht)]. }
  repeat split; apply Hthrow.
Qed.

(** With nothing overridden, the orchestration throws too: it stops in
    [Process()]. *)
Lemma ParseChunkInternal_base_throws (s : BaseScanner.t) :
  BaseScanner.ParseChunkInternal BaseScanner.base s
  = Throw (InternalException "Process() from CSV Base Scanner is mot implemented").
Proof. reflexivity. Qed.

(** ** The constructor *)

Lemma new_Some_inv (bm : CSVBufferManager.t) (sm : CSVStateMachine.t)
    (b : ScannerBoundary.t) (s : BaseScanner.t) :
  BaseScanner.new bm sm b = Some s ->
  exists h,
    CSVBufferManager.GetBuffer bm (ScannerBoundary.file_idx b)
      (ScannerBoundary.buffer_idx b) = Some h /\
    BaseScanner.cur_buffer_handle s = Some h /\
    BaseScanner.buffer_manager s = bm /\
    BaseScanner.boundary s = b.
Proof.
  unfold BaseScanner.new, ScannerBoundary.GetFileIdx, ScannerBoundary.GetBufferIdx.
  destruct (CSVBufferManager.GetBuffer bm (ScannerBoundary.file_idx b)
              (ScannerBoundary.buffer_idx b)) as [h|] eqn:Hbuf; [|discriminate].
  intros H. injection H as <-.
  exists h. repeat split; auto.
Qed.

(** The stored boundary is the argument, whatever the size of the buffer: the
    clamp of the body reaches only the by-value argument. *)
Lemma new_stores_argument (bm : CSVBufferManager.t) (sm : CSVStateMachine.t)
    (b : ScannerBoundary.t) (s : BaseScanner.t) :
  BaseScanner.new bm sm b = Some s ->
  ScannerBoundary.end_pos (BaseScanner.boundary s) = ScannerBoundary.end_pos b.
Proof.
  intros H. apply new_Some_inv in H.
  destruct H as (h & _ & _ & _ & ->). reflexivity.
Qed.

(** C3 (fails on the code): constructed over a buffer of 4 bytes from a
    boundary that ends at 100, the scanner stores a boundary that still ends
    at 100, beyond the size of the buffer loaded for it. *)
Theorem new_boundary_end_beyond_buffer :
  exists s h,
    BaseScanner.new Sample.one_file Sample.machine Sample.wide = Some s /\
    BaseScanner.cur_buffer_handle s = Some h /\
    CSVBufferHandle.actual_size h = 4 /\
    ScannerBoundary.end_pos (BaseScanner.boundary s) = 100 /\
    ~ ScannerBoundary.end_pos (BaseScanner.boundary s) <= CSVBufferHandle.actual_size h.
Proof.
  eexists. exists Sample.handle.
  split; [reflexivity|].
  cbn. repeat split. lia.
Qed.

(** ** [BaseScanner::Initialize] and [ParseChunkInternal] *)

Lemma Initialize_sets_empty_line (s : BaseScanner.t) :
  CSVStates.current_state (BaseScanner.states (BaseScanner.Initialize s)) = EMPTY_LINE.
Proof. reflexivity. Qed.

Lemma Initialize_keeps_initialized (s : BaseScanner.t) :
  BaseScanner.initialized (BaseScanner.Initialize s) = BaseScanner.initialized s.
Proof. reflexivity. Qed.

(** While the flag is unset, the orchestration starts by initializing, also
    right after [Initialize()]. *)
Lemma ParseChunkInternal_initializes_again (m : BaseScanner.Mode) (s : BaseScanner.t) :
  BaseScanner.initialized s = false ->
  BaseScanner.ParseChunkInternal m (BaseScanner.Initialize s)
  = (s2 <- BaseScanner.mProcess m (BaseScanner.Initialize (BaseScanner.Initialize s)) ;;
     BaseScanner.mFinalizeChunkProcess m s2).
Proof.
  intros Hflag. unfold BaseScanner.ParseChunkInternal.
  rewrite Initialize_keeps_initialized, Hflag. reflexivity.
Qed.

(** C4 (fails on the code): on a fresh scanner [Initialize()] puts the
    automaton at the empty line but leaves [initialized] false; the next
    [ParseChunkInternal()] therefore initializes the automaton again.  With a
    mode that steps empty line, standard, record separator, two calls both
    end in the standard state. *)
Theorem Initialize_leaves_flag_unset :
  let s0 := Sample.scanner_of Sample.one_file Sample.wide in
  BaseScanner.new Sample.one_file Sample.machine Sample.wide = Some s0 /\
  CSVStates.current_state (BaseScanner.states (BaseScanner.Initialize s0)) = EMPTY_LINE /\
  BaseScanner.initialized (BaseScanner.Initialize s0) = false /\
  exists s1 s2,
    BaseScanner.ParseChunkInternal Sample.stepping (BaseScanner.Initialize s0) = Return s1 /\
    CSVStates.current_state (BaseScanner.states s1) = STANDARD /\
    BaseScanner.initialized s1 = false /\
    BaseScanner.ParseChunkInternal Sample.stepping s1 = Return s2 /\
    CSVStates.current_state (BaseScanner.states s2) = STANDARD.
Proof.
  cbv zeta.
  split; [reflexivity|]. split; [reflexivity|]. split; [reflexivity|].
  eexists. eexists.
  split; [reflexivity|]. split; [reflexivity|]. split; [reflexivity|].
  split; reflexivity.
Qed.

(** ** [BaseScanner::ColumnTypesError] *)

Lemma append_assoc (a b c : string) :
  ((a ++ b) ++ c = a ++ (b ++ c))%string.
Proof.
  induction a as [|x a IH]; cbn; [reflexivity|].
  rewrite IH. reflexivity.
Qed.

Lemma pop_back_append_char (s : string) (c : ascii) :
  BaseScanner.pop_back (s ++ String c EmptyString) = s.
Proof.
  induction s as [|x s IH]; [reflexivity|].
  cbn [append]. destruct s as [|y s'].
  - reflexivity.
  - cbn [append] in *. cbn [BaseScanner.pop_back].
    cbn [BaseScanner.pop_back] in IH. rewrite IH. reflexivity.
Qed.

Lemma filter_twice {A : Type} (f g : A -> bool) (l : list A) :
  filter f (filter g l) = filter (fun x => g x && f x) l.
Proof.
  induction l as [|x l IH]; [reflexivity|].
  cbn. destruct (g x); cbn.
  - destruct (f x); rewrite IH; reflexivity.
  - exact IH.
Qed.

Lemma filter_map_fst {A B : Type} (f : A -> bool) (l : list (A * B)) :
  map fst (filter (fun kv => f (fst kv)) l) = filter f (map fst l).
Proof.
  induction l as [|[k v] l IH]; [reflexivity|].
  cbn. destruct (f k); cbn; rewrite IH; reflexivity.
Qed.

Section ColumnTypesProofs.

Variable key_eq : string -> string -> bool.

(** Erasing a name the map does not hold changes nothing, so the test of the
    loop only saves the call. *)
Lemma erase_not_found (m : BaseScanner.column_map) (n : string) :
  BaseScanner.find key_eq m n = None -> BaseScanner.erase key_eq m n = m.
Proof.
  unfold BaseScanner.find, BaseScanner.erase. intros Hnone.
  apply forallb_filter_id. apply forallb_forall. intros kv Hin.
  rewrite (find_none _ _ Hnone kv Hin). reflexivity.
Qed.

Lemma erase_found_cons (m : BaseScanner.column_map) (n : string) (rest : list string) :
  BaseScanner.erase_found key_eq m (n :: rest)
  = BaseScanner.erase_found key_eq (BaseScanner.erase key_eq m n) rest.
Proof.
  cbn [BaseScanner.erase_found].
  destruct (BaseScanner.find key_eq m n) eqn:Hfind; [reflexivity|].
  rewrite (erase_not_found _ _ Hfind). reflexivity.
Qed.

(** The first loop leaves the entries whose key matches no discovered name. *)
Lemma erase_found_filter (names : list string) (m : BaseScanner.column_map) :
  BaseScanner.erase_found key_eq m names
  = filter (fun kv => negb (ColumnTypesSpec.occurs_among key_eq (fst kv) names)) m.
Proof.
  revert m. induction names as [|n rest IH]; intros m.
  - cbn. symmetry. apply filter_true.
  - rewrite erase_found_cons, IH. unfold BaseScanner.erase.
    rewrite filter_twice. apply filter_ext. intros kv.
    unfold ColumnTypesSpec.occurs_among. cbn [existsb].
    rewrite negb_orb. reflexivity.
Qed.

Lemma erase_found_keys (names : list string) (m : BaseScanner.column_map) :
  map fst (BaseScanner.erase_found key_eq m names)
  = ColumnTypesSpec.unmatched key_eq m names.
Proof.
  rewrite erase_found_filter. unfold ColumnTypesSpec.unmatched.
  apply (filter_map_fst (fun k => negb (ColumnTypesSpec.occurs_among key_eq k names))).
Qed.

Lemma unmatched_In (m : BaseScanner.column_map) (names : list string) (k : string) :
  In k (ColumnTypesSpec.unmatched key_eq m names) <->
  In k (map fst m) /\ forall n, In n names -> key_eq k n = false.
Proof.
  unfold ColumnTypesSpec.unmatched, ColumnTypesSpec.occurs_among.
  rewrite filter_In, negb_true_iff.
  split; intros [Hin Hno]; (split; [exact Hin|]).
  - intros n Hn. destruct (key_eq k n) eqn:Hk; [|reflexivity].
    assert (Hex : existsb (key_eq k) names = true)
      by (apply existsb_exists; exists n; auto).
    rewrite Hex in Hno. discriminate Hno.
  - destruct (existsb (key_eq k) names) eqn:Hex; [|reflexivity].
    apply existsb_exists in Hex. destruct Hex as (n & Hn & Hk).
    rewrite (Hno n Hn) in Hk. discriminate Hk.
Qed.

(** Nothing is unmatched exactly when every declared name occurs among the
    discovered ones. *)
Lemma unmatched_nil_iff (m : BaseScanner.column_map) (names : list string) :
  ColumnTypesSpec.unmatched key_eq m names = [] <->
  forall k, In k (map fst m) -> exists n, In n names /\ key_eq k n = true.
Proof.
  split.
  - intros Hnil k Hin.
    destruct (existsb (key_eq k) names) eqn:Hex.
    + apply existsb_exists in Hex. exact Hex.
    + exfalso.
      assert (Hk : In k (ColumnTypesSpec.unmatched key_eq m names)).
      { unfold ColumnTypesSpec.unmatched, ColumnTypesSpec.occurs_among.
        apply filter_In. rewrite Hex. auto. }
      rewrite Hnil in Hk. exact Hk.
  - intros Hall.
    destruct (ColumnTypesSpec.unmatched key_eq m names) as [|k ks] eqn:Hun; [reflexivity|].
    exfalso.
    assert (Hk : In k (ColumnTypesSpec.unmatched key_eq m names))
      by (rewrite Hun; left; reflexivity).
    apply unmatched_In in Hk. destruct Hk as [Hin Hno].
    destruct (Hall k Hin) as (n & Hn & Hk).
    rewrite (Hno n Hn) in Hk. discriminate Hk.
Qed.

End ColumnTypesProofs.

Lemma concat_cons_cons (sep x : string) (l : list string) :
  l <> [] -> String.concat sep (x :: l) = (x ++ sep ++ String.concat sep l)%string.
Proof.
  destruct l as [|y l]; [contradiction|reflexivity].
Qed.

Lemma append_columns_cons (exception : string) (kv : string * idx_t)
    (m : BaseScanner.column_map) :
  BaseScanner.append_columns exception (kv :: m)
  = BaseScanner.append_columns
      (exception ++ (BaseScanner.dquote ++ fst kv ++ (BaseScanner.dquote ++ ",")))%string m.
Proof. reflexivity. Qed.

(** The second loop writes the quoted keys, each followed by a comma. *)
Lemma append_columns_joined (m : BaseScanner.column_map) :
  m <> [] ->
  forall exception : string,
    BaseScanner.append_columns exception m
    = ((exception ++ String.concat "," (map ColumnTypesSpec.quoted (map fst m)))
       ++ ",")%string.
Proof.
  induction m as [|[k v] m IH]; intros Hne exception; [contradiction|].
  rewrite append_columns_cons. cbn [fst].
  destruct m as [|kv' m'].
  - cbn [BaseScanner.append_columns fold_left map fst String.concat].
    unfold ColumnTypesSpec.quoted.
    rewrite !append_assoc. reflexivity.
  - rewrite IH by discriminate.
    change (map ColumnTypesSpec.quoted (map fst ((k, v) :: kv' :: m')))
      with (ColumnTypesSpec.quoted k
            :: map ColumnTypesSpec.quoted (map fst (kv' :: m'))).
    rewrite concat_cons_cons by discriminate.
    generalize (String.concat "," (map ColumnTypesSpec.quoted (map fst (kv' :: m')))).
    intros joined. unfold ColumnTypesSpec.quoted.
    rewrite !append_assoc. reflexivity.
Qed.

Lemma ColumnTypesError_message (key_eq : string -> string -> bool)
    (m : BaseScanner.column_map) (names : list string) :
  ColumnTypesSpec.unmatched key_eq m names <> [] ->
  BaseScanner.ColumnTypesError key_eq m names
  = ColumnTypesSpec.mismatch_message (ColumnTypesSpec.unmatched key_eq m names).
Proof.
  intros Hne. unfold BaseScanner.ColumnTypesError.
  rewrite <- erase_found_keys in Hne |- *.
  destruct (BaseScanner.erase_found key_eq m names) as [|kv left_over] eqn:Hleft.
  - contradiction Hne. reflexivity.
  - cbv zeta. rewrite append_columns_joined by discriminate.
    rewrite pop_back_append_char.
    unfold ColumnTypesSpec.mismatch_message.
    rewrite append_assoc. reflexivity.
Qed.

(** C7: [ColumnTypesError] returns the empty string when every declared name
    occurs among the discovered names; otherwise it returns one message, not
    empty, that lists the declared names that occur among no discovered name,
    all of them and only them.  Names are compared as the map compares its
    keys. *)
Theorem ColumnTypesError_reports_unmatched (key_eq : string -> string -> bool)
    (m : BaseScanner.column_map) (names : list string) :
  let declared := map fst m in
  let missing := ColumnTypesSpec.unmatched key_eq m names in
  (forall k, In k missing <->
             In k declared /\ forall n, In n names -> key_eq k n = false) /\
  ((forall k, In k declared -> exists n, In n names /\ key_eq k n = true) ->
   BaseScanner.ColumnTypesError key_eq m names = EmptyString) /\
  (~ (forall k, In k declared -> exists n, In n names /\ key_eq k n = true) ->
   missing <> [] /\
   BaseScanner.ColumnTypesError key_eq m names = ColumnTypesSpec.mismatch_message missing /\
   BaseScanner.ColumnTypesError key_eq m names <> EmptyString).
Proof.
  cbv zeta. split; [|split].
  - intros k. apply unmatched_In.
  - intros Hall. apply unmatched_nil_iff in Hall.
    unfold BaseScanner.ColumnTypesError.
    destruct (BaseScanner.erase_found key_eq m names) as [|kv left_over] eqn:Hleft;
      [reflexivity|].
    rewrite <- erase_found_keys, Hleft in Hall. discriminate Hall.
  - intros Hnot.
    assert (Hne : ColumnTypesSpec.unmatched key_eq m names <> []).
    { intros Hnil. apply Hnot. apply unmatched_nil_iff. exact Hnil. }
    split; [exact Hne|].
    rewrite (ColumnTypesError_message _ _ _ Hne).
    split; [reflexivity|].
    unfold ColumnTypesSpec.mismatch_message. cbn. discriminate.
Qed.

(** Two declared names are missing from the header; [id] is found although
    the header spells it in capitals. *)
Example ColumnTypesError_two_missing :
  BaseScanner.ColumnTypesError ci_equal Sample.declared ["ID"; "age"]%string
  = ColumnTypesSpec.mismatch_message ["Name"; "zip"]%string /\
  BaseScanner.ColumnTypesError ci_equal Sample.declared ["zip"; "NAME"; "x"; "Id"]%string
  = EmptyString.
Proof. split; reflexivity. Qed.

(** * Further properties of the scanner *)

(** ** When [Finished()] throws and when it answers false *)

(** X1: [Finished()] throws exactly when the position is not done, a buffer
    handle is present and the buffer manager reports more than one file; in
    every other state it answers a boolean. *)
Theorem Finished_throws_iff (s : BaseScanner.t) :
  (throws (BaseScanner.Finished s) <->
   ScannerPosition.done (BaseScanner.pos s) = false /\
   BaseScanner.cur_buffer_handle s <> None /\
   1 < CSVBufferManager.FileCount (BaseScanner.buffer_manager s)) /\
  (returns (BaseScanner.Finished s) <-> ~ throws (BaseScanner.Finished s)).
Proof.
  assert (Hcases :
    (BaseScanner.Finished s = Throw (InternalException BaseScanner.Finished_message) /\
     ScannerPosition.done (BaseScanner.pos s) = false /\
     BaseScanner.cur_buffer_handle s <> None /\
     1 < CSVBufferManager.FileCount (BaseScanner.buffer_manager s)) \/
    ((exists b, BaseScanner.Finished s = Return b) /\
     ~ (ScannerPosition.done (BaseScanner.pos s) = false /\
        BaseScanner.cur_buffer_handle s <> None /\
        1 < CSVBufferManager.FileCount (BaseScanner.buffer_manager s)))).
  { unfold BaseScanner.Finished.
    destruct (ScannerPosition.done (BaseScanner.pos s)) eqn:Hdone.
    { right. split; [exists true; reflexivity|]. intros (H & _). discriminate H. }
    destruct (BaseScanner.cur_buffer_handle s) as [h|] eqn:Hhandle.
    2: { right. split; [exists true; reflexivity|]. intros (_ & H & _). apply H. reflexivity. }
    destruct (CSVBufferManager.FileCount (BaseScanner.buffer_manager s) >? 1) eqn:Hfiles.
    { left. apply Z.gtb_lt in Hfiles. repeat split; auto. discriminate. }
    right. rewrite Z.gtb_ltb in Hfiles. apply Z.ltb_ge in Hfiles.
    split; [|intros (_ & _ & H); lia].
    destruct (CSVBufferManager.Done (BaseScanner.buffer_manager s)); cbn [negb];
      [|eexists; reflexivity].
    destruct (ScannerPosition.buffer_id (BaseScanner.pos s)
              =? CSVBufferManager.CachedBufferPerFile (BaseScanner.buffer_manager s)
                   (ScannerPosition.file_id (BaseScanner.pos s))); cbn [negb];
      eexists; reflexivity. }
  destruct Hcases as [(Hthrow & Hcond) | ((b & Hret) & Hcond)].
  - assert (Ht : throws (BaseScanner.Finished s)) by (eexists; exact Hthrow).
    split; split; intros H; auto.
    + exfalso. exact (throws_not_returns _ Ht H).
    + contradiction.
  - assert (Hnt : ~ throws (BaseScanner.Finished s)).
    { intros [e He]. rewrite Hret in He. discriminate He. }
    split; split; intros H; auto.
    + contradiction.
    + contradiction.
    + exists b. exact Hret.
Qed.

(** X2: [Finished()] answers false exactly when the position is not done, a
    handle is present, at most one file is reported and the source has data
    pending, or the position is not in the buffer [CachedBufferPerFile] names,
    or its offset plus one is not the actual size of the buffer. *)
Theorem Finished_false_iff (s : BaseScanner.t) :
  BaseScanner.Finished s = Return false <->
  ScannerPosition.done (BaseScanner.pos s) = false /\
  CSVBufferManager.FileCount (BaseScanner.buffer_manager s) <= 1 /\
  exists h, BaseScanner.cur_buffer_handle s = Some h /\
    (CSVBufferManager.Done (BaseScanner.buffer_manager s) = false \/
     ScannerPosition.buffer_id (BaseScanner.pos s)
     <> CSVBufferManager.CachedBufferPerFile (BaseScanner.buffer_manager s)
          (ScannerPosition.file_id (BaseScanner.pos s)) \/
     Idx.add (ScannerPosition.pos (BaseScanner.pos s)) 1
     <> CSVBufferHandle.actual_size h).
Proof.
  unfold BaseScanner.Finished.
  destruct (ScannerPosition.done (BaseScanner.pos s)) eqn:Hdone.
  { split; [discriminate|]. intros (H & _). discriminate H. }
  destruct (BaseScanner.cur_buffer_handle s) as [h|] eqn:Hhandle.
  2: { split; [discriminate|]. intros (_ & _ & h & H & _). discriminate H. }
  destruct (CSVBufferManager.FileCount (BaseScanner.buffer_manager s) >? 1) eqn:Hfiles.
  { apply Z.gtb_lt in Hfiles. split; [discriminate|]. intros (_ & H & _). lia. }
  rewrite Z.gtb_ltb in Hfiles. apply Z.ltb_ge in Hfiles.
  destruct (CSVBufferManager.Done (BaseScanner.buffer_manager s)) eqn:Hsource; cbn [negb].
  2: { split; [|reflexivity]. intros _. repeat split; auto. exists h. auto. }
  destruct (ScannerPosition.buffer_id (BaseScanner.pos s)
            =? CSVBufferManager.CachedBufferPerFile (BaseScanner.buffer_manager s)
                 (ScannerPosition.file_id (BaseScanner.pos s))) eqn:Hlast; cbn [negb].
  2: { apply Z.eqb_neq in Hlast. split; [|reflexivity].
       intros _. repeat split; auto. exists h. auto. }
  apply Z.eqb_eq in Hlast.
  split.
  - intros H. injection H as H. apply Z.eqb_neq in H.
    repeat split; auto. exists h. auto.
  - intros (_ & _ & h' & Hh & [H | [H | H]]).
    + discriminate H.
    + contradiction.
    + injection Hh as <-. apply Z.eqb_neq in H. rewrite H. reflexivity.
Qed.

(** X3: [Finished()] reads the position, the buffer handle and the buffer
    manager and nothing else: the boundary, the automaton, the flag
    [initialized] and the result do not change its answer. *)
Theorem Finished_reads_position_handle_manager (s1 s2 : BaseScanner.t) :
  BaseScanner.pos s1 = BaseScanner.pos s2 ->
  BaseScanner.cur_buffer_handle s1 = BaseScanner.cur_buffer_handle s2 ->
  BaseScanner.buffer_manager s1 = BaseScanner.buffer_manager s2 ->
  BaseScanner.Finished s1 = BaseScanner.Finished s2.
Proof.
  intros Hpos Hhandle Hmanager. unfold BaseScanner.Finished.
  rewrite Hpos, Hhandle, Hmanager. reflexivity.
Qed.

Lemma Finished_reads_position_handle_manager_witness :
  BaseScanner.Finished Sample.at_end_of_narrow
  = BaseScanner.Finished Sample.at_end_of_narrow_other.
Proof.
  apply (Finished_reads_position_handle_manager
           Sample.at_end_of_narrow Sample.at_end_of_narrow_other);
    reflexivity.
Defined.

(** The position has left its boundary and the scanner is not finished: the
    end of the boundary is no part of the test. *)
Example Finished_false_past_boundary :
  ScannerPosition.pos (BaseScanner.pos Sample.at_end_of_narrow)
  = ScannerBoundary.end_pos (BaseScanner.boundary Sample.at_end_of_narrow) /\
  BaseScanner.Finished Sample.at_end_of_narrow = Return false.
Proof. split; reflexivity. Qed.

(** ** The constructor *)

(** X4: given a buffer manager and a state machine, the constructor yields a
    scanner exactly when the buffer manager has a buffer for the file and
    buffer of the boundary, and the scanner then holds that handle and its
    bytes; with a null handle (dereferenced on line 36) it yields none. *)
Theorem new_fails_iff (bm : CSVBufferManager.t) (sm : CSVStateMachine.t)
    (b : ScannerBoundary.t) :
  (BaseScanner.new bm sm b = None <->
   CSVBufferManager.GetBuffer bm (ScannerBoundary.file_idx b)
     (ScannerBoundary.buffer_idx b) = None) /\
  (forall h,
     CSVBufferManager.GetBuffer bm (ScannerBoundary.file_idx b)
       (ScannerBoundary.buffer_idx b) = Some h <->
     exists s, BaseScanner.new bm sm b = Some s /\
               BaseScanner.cur_buffer_handle s = Some h /\
               BaseScanner.buffer_handle_ptr s = CSVBufferHandle.Ptr h).
Proof.
  unfold BaseScanner.new, ScannerBoundary.GetFileIdx, ScannerBoundary.GetBufferIdx.
  destruct (CSVBufferManager.GetBuffer bm (ScannerBoundary.file_idx b)
              (ScannerBoundary.buffer_idx b)) as [h0|] eqn:Hbuf.
  - split; [split; discriminate|].
    intros h. split.
    + intros H. injection H as <-. eexists. split; [reflexivity|]. split; reflexivity.
    + intros (s & Hs & Hh & _). injection Hs as <-. cbn in Hh. exact Hh.
  - split; [split; reflexivity|].
    intros h. split; [discriminate|]. intros (s & Hs & _). discriminate Hs.
Qed.

(** X5: a constructed scanner stands at the start of its boundary, whatever
    the size of the buffer: not done, not initialized, holding the handle the
    buffer manager gave and the state machine it was given; [Reset()] on it
    changes nothing. *)
Theorem new_at_boundary_start (bm : CSVBufferManager.t) (sm : CSVStateMachine.t)
    (b : ScannerBoundary.t) (s : BaseScanner.t) :
  BaseScanner.new bm sm b = Some s ->
  BaseScanner.pos s
  = ScannerPosition.mk (ScannerBoundary.buffer_pos b) (ScannerBoundary.buffer_idx b)
      (ScannerBoundary.file_idx b) false /\
  BaseScanner.cur_buffer_handle s
  = CSVBufferManager.GetBuffer bm (ScannerBoundary.file_idx b)
      (ScannerBoundary.buffer_idx b) /\
  BaseScanner.cur_buffer_handle s <> None /\
  BaseScanner.GetStateMachine s = sm /\
  BaseScanner.initialized s = false /\
  BaseScanner.Reset s = s.
Proof.
  unfold BaseScanner.new, ScannerBoundary.GetFileIdx, ScannerBoundary.GetBufferIdx.
  destruct (CSVBufferManager.GetBuffer bm (ScannerBoundary.file_idx b)
              (ScannerBoundary.buffer_idx b)) as [h|] eqn:Hbuf; [|discriminate].
  intros H. injection H as <-. cbn.
  repeat split; auto. discriminate.
Qed.

Lemma new_at_boundary_start_witness :
  BaseScanner.pos (Sample.scanner_of Sample.one_file Sample.wide)
  = ScannerPosition.mk 0 0 0 false /\
  BaseScanner.Reset (Sample.scanner_of Sample.one_file Sample.wide)
  = Sample.scanner_of Sample.one_file Sample.wide.
Proof.
  destruct (new_at_boundary_start Sample.one_file Sample.machine Sample.wide
              (Sample.scanner_of Sample.one_file Sample.wide) eq_refl)
    as (Hpos & _ & _ & _ & _ & Hreset).
  split; [exact Hpos | exact Hreset].
Defined.

(** ** Where [Reset()] changes nothing *)

(** X6: [Reset()] changes nothing exactly when the position already stands at
    the buffer index and start offset of the boundary. *)
Theorem Reset_fixed_iff (s : BaseScanner.t) :
  BaseScanner.Reset s = s <->
  ScannerPosition.buffer_id (BaseScanner.pos s)
  = ScannerBoundary.buffer_idx (BaseScanner.boundary s) /\
  ScannerPosition.pos (BaseScanner.pos s)
  = ScannerBoundary.buffer_pos (BaseScanner.boundary s).
Proof.
  destruct s as [st b [p bid fid d] bm h ptr sm ini r].
  unfold BaseScanner.Reset, BaseScanner.set_pos. cbn.
  split.
  - intros H. injection H as Hp Hb. destruct b as [bf bb bp be]. cbn in *.
    split; symmetry; assumption.
  - intros [Hb Hp]. subst. reflexivity.
Qed.

(** ** More on [ColumnTypesError] *)

(** The answer is a function of the declared names left unmatched. *)
Lemma ColumnTypesError_by_unmatched (key_eq : string -> string -> bool)
    (m : BaseScanner.column_map) (names : list string) :
  BaseScanner.ColumnTypesError key_eq m names
  = match ColumnTypesSpec.unmatched key_eq m names with
    | [] => EmptyString
    | k :: ks => ColumnTypesSpec.mismatch_message (k :: ks)
    end.
Proof.
  destruct (ColumnTypesSpec.unmatched key_eq m names) as [|k ks] eqn:Hun.
  - unfold BaseScanner.ColumnTypesError.
    rewrite <- erase_found_keys in Hun.
    destruct (BaseScanner.erase_found key_eq m names); [reflexivity|discriminate Hun].
  - rewrite <- Hun. apply ColumnTypesError_message. rewrite Hun. discriminate.
Qed.

Lemma unmatched_same_names (key_eq : string -> string -> bool)
    (m : BaseScanner.column_map) (names names' : list string) :
  (forall n, In n names <-> In n names') ->
  ColumnTypesSpec.unmatched key_eq m names = ColumnTypesSpec.unmatched key_eq m names'.
Proof.
  intros Hsame. unfold ColumnTypesSpec.unmatched, ColumnTypesSpec.occurs_among.
  apply filter_ext. intros k. f_equal.
  destruct (existsb (key_eq k) names) eqn:H1; destruct (existsb (key_eq k) names') eqn:H2;
    try reflexivity; exfalso.
  - apply existsb_exists in H1. destruct H1 as (n & Hn & Hk).
    assert (H : existsb (key_eq k) names' = true)
      by (apply existsb_exists; exists n; split; [apply Hsame; exact Hn | exact Hk]).
    rewrite H in H2. discriminate H2.
  - apply existsb_exists in H2. destruct H2 as (n & Hn & Hk).
    assert (H : existsb (key_eq k) names = true)
      by (apply existsb_exists; exists n; split; [apply Hsame; exact Hn | exact Hk]).
    rewrite H in H1. discriminate H1.
Qed.

(** X7: the order of the discovered names and their repetitions do not
    matter: two lists of the same names give the same answer. *)
Theorem ColumnTypesError_same_names (key_eq : string -> string -> bool)
    (m : BaseScanner.column_map) (names names' : list string) :
  (forall n, In n names <-> In n names') ->
  BaseScanner.ColumnTypesError key_eq m names
  = BaseScanner.ColumnTypesError key_eq m names'.
Proof.
  intros Hsame. rewrite !ColumnTypesError_by_unmatched.
  rewrite (unmatched_same_names key_eq m names names' Hsame). reflexivity.
Qed.

Lemma ColumnTypesError_same_names_witness :
  BaseScanner.ColumnTypesError String.eqb Sample.declared ["zip"; "id"; "zip"]%string
  = BaseScanner.ColumnTypesError String.eqb Sample.declared ["id"; "zip"]%string.
Proof.
  apply (ColumnTypesError_same_names String.eqb Sample.declared
           ["zip"; "id"; "zip"]%string ["id"; "zip"]%string).
  intros n. cbn. tauto.
Defined.

(** X8: with nothing declared the answer is the empty string whatever was
    discovered; with nothing discovered every declared name is listed, in the
    order of the map. *)
Theorem ColumnTypesError_empty_sides (key_eq : string -> string -> bool)
    (kv : string * idx_t) (m : BaseScanner.column_map) (names : list string) :
  BaseScanner.ColumnTypesError key_eq [] names = EmptyString /\
  BaseScanner.ColumnTypesError key_eq (kv :: m) []
  = ColumnTypesSpec.mismatch_message (map fst (kv :: m)).
Proof.
  split.
  - rewrite ColumnTypesError_by_unmatched. reflexivity.
  - rewrite ColumnTypesError_by_unmatched.
    unfold ColumnTypesSpec.unmatched, ColumnTypesSpec.occurs_among.
    cbn [existsb negb]. rewrite filter_true. reflexivity.
Qed.

(** Looking the names up in two batches is looking all of them up. *)
Lemma erase_found_app (key_eq : string -> string -> bool)
    (names more : list string) (m : BaseScanner.column_map) :
  BaseScanner.erase_found key_eq m (names ++ more)
  = BaseScanner.erase_found key_eq (BaseScanner.erase_found key_eq m names) more.
Proof.
  revert m. induction names as [|n names IH]; intros m; [reflexivity|].
  cbn [app]. rewrite !erase_found_cons. apply IH.
Qed.

(** X9: more discovered names never bring a complaint: once the answer is
    the empty string it stays so when names are added, before or after. *)
Theorem ColumnTypesError_more_names (key_eq : string -> string -> bool)
    (m : BaseScanner.column_map) (names more : list string) :
  BaseScanner.ColumnTypesError key_eq m names = EmptyString ->
  BaseScanner.ColumnTypesError key_eq m (names ++ more) = EmptyString /\
  BaseScanner.ColumnTypesError key_eq m (more ++ names) = EmptyString.
Proof.
  intros Hempty.
  assert (Hnil : ColumnTypesSpec.unmatched key_eq m names = []).
  { rewrite ColumnTypesError_by_unmatched in Hempty.
    destruct (ColumnTypesSpec.unmatched key_eq m names) as [|k ks]; [reflexivity|].
    exfalso. unfold ColumnTypesSpec.mismatch_message in Hempty. cbn in Hempty.
    discriminate Hempty. }
  assert (Hall := proj1 (unmatched_nil_iff key_eq m names) Hnil).
  assert (Hgrow : forall names', (forall n, In n names -> In n names') ->
            BaseScanner.ColumnTypesError key_eq m names' = EmptyString).
  { intros names' Hincl. rewrite ColumnTypesError_by_unmatched.
    assert (Hnil' : ColumnTypesSpec.unmatched key_eq m names' = []).
    { apply unmatched_nil_iff. intros k Hk.
      destruct (Hall k Hk) as (n & Hn & Heq). exists n. split; auto. }
    rewrite Hnil'. reflexivity. }
  split; apply Hgrow; intros n Hn; apply in_or_app; auto.
Qed.

Lemma ColumnTypesError_more_names_witness :
  BaseScanner.ColumnTypesError String.eqb Sample.declared
    (["zip"; "Name"; "id"]%string ++ ["age"%string])%list = EmptyString /\
  BaseScanner.ColumnTypesError String.eqb Sample.declared
    (["age"%string] ++ ["zip"; "Name"; "id"]%string)%list = EmptyString.
Proof.
  apply (ColumnTypesError_more_names String.eqb Sample.declared
           ["zip"; "Name"; "id"]%string ["age"]%string).
  reflexivity.
Defined.

(** X10: the type indices of the map are never read: the answer is the same
    whatever types are declared for the names. *)
Theorem ColumnTypesError_ignores_types (key_eq : string -> string -> bool)
    (retype : idx_t -> idx_t) (m : BaseScanner.column_map) (names : list string) :
  BaseScanner.ColumnTypesError key_eq
    (map (fun kv => (fst kv, retype (snd kv))) m) names
  = BaseScanner.ColumnTypesError key_eq m names.
Proof.
  rewrite !ColumnTypesError_by_unmatched.
  unfold ColumnTypesSpec.unmatched.
  rewrite map_map. cbn [fst]. reflexivity.
Qed.

(** * Properties of the function sets *)

Section FunctionSetProofs.

Variable LogicalType : Type.
Variable type_eqb : LogicalType -> LogicalType -> bool.
Variable F : Type.
Variable arguments : F -> list LogicalType.
Variable INVALID_INDEX : idx_t.
Variable BindFunction : string -> list F -> list LogicalType -> idx_t * string.
Variable GetFunctionByOffset : list F -> idx_t -> F.
Variable failed_to_find : string -> list LogicalType -> string -> string.

Let proper := FunctionSet.proper_prefix LogicalType type_eqb F arguments.
Let Aggregate :=
  FunctionSet.AggregateGetFunctionByArguments LogicalType type_eqb F arguments
    INVALID_INDEX BindFunction GetFunctionByOffset failed_to_find.

Lemma is_prefix_Forall2 (args fargs : list LogicalType) :
  FunctionSet.is_prefix LogicalType type_eqb args fargs = true <->
  Forall2 (fun a b => type_eqb a b = true) args (firstn (List.length args) fargs).
Proof.
  revert fargs. induction args as [|a args IH]; intros fargs.
  - cbn. split; [constructor | reflexivity].
  - destruct fargs as [|b fargs]; cbn.
    + split; [discriminate | intros H; inversion H].
    + destruct (type_eqb a b) eqn:Hab; cbn.
      * rewrite IH. split; [intros H; constructor; assumption|].
        intros H. inversion H; subst. assumption.
      * split; [discriminate|]. intros H. inversion H; subst. congruence.
Qed.

(** The test of one turn of the outer loop. *)
Lemma candidate_iff (args : list LogicalType) (func : F) :
  ((List.length (arguments func) <=? List.length args)%nat = false /\
   FunctionSet.is_prefix LogicalType type_eqb args (arguments func) = true) <->
  proper args func.
Proof.
  unfold proper, FunctionSet.proper_prefix.
  rewrite Nat.leb_gt, is_prefix_Forall2. reflexivity.
Qed.

Lemma find_prefix_None (funcs : list F) (args : list LogicalType) :
  FunctionSet.find_prefix LogicalType type_eqb F arguments funcs args = None <->
  forall g, In g funcs -> ~ proper args g.
Proof.
  induction funcs as [|func rest IH]; cbn [FunctionSet.find_prefix].
  - split; [intros _ g [] | reflexivity].
  - destruct (List.length (arguments func) <=? List.length args)%nat eqn:Hlen.
    + rewrite IH. split.
      * intros H g [<- | Hg]; [|apply H; exact Hg].
        intros Hp. apply candidate_iff in Hp. destruct Hp as [Hp _]. congruence.
      * intros H g Hg. apply H. right. exact Hg.
    + destruct (FunctionSet.is_prefix LogicalType type_eqb args (arguments func)) eqn:Hpre.
      * split; [discriminate|]. intros H. exfalso.
        apply (H func (or_introl eq_refl)). apply candidate_iff. auto.
      * rewrite IH. split.
        -- intros H g [<- | Hg]; [|apply H; exact Hg].
           intros Hp. apply candidate_iff in Hp. destruct Hp as [_ Hp]. congruence.
        -- intros H g Hg. apply H. right. exact Hg.
Qed.

Lemma find_prefix_Some (funcs : list F) (args : list LogicalType) (f : F) :
  FunctionSet.find_prefix LogicalType type_eqb F arguments funcs args = Some f <->
  exists before after,
    funcs = before ++ f :: after /\ proper args f /\
    forall g, In g before -> ~ proper args g.
Proof.
  induction funcs as [|func rest IH]; cbn [FunctionSet.find_prefix].
  - split; [discriminate|].
    intros (before & after & H & _). destruct before; discriminate H.
  - assert (Hskip : ~ proper args func ->
              (FunctionSet.find_prefix LogicalType type_eqb F arguments rest args = Some f <->
               exists before after,
                 func :: rest = before ++ f :: after /\ proper args f /\
                 forall g, In g before -> ~ proper args g)).
    { intros Hno. rewrite IH. split.
      - intros (before & after & -> & Hp & Hb).
        exists (func :: before), after.
        split; [reflexivity|]. split; [exact Hp|].
        intros g [<- | Hg]; auto.
      - intros (before & after & Heq & Hp & Hb).
        destruct before as [|g before]; cbn in Heq; injection Heq as -> ->.
        + contradiction.
        + exists before, after.
          split; [reflexivity|]. split; [exact Hp|].
          intros g' Hg'. apply Hb. right. exact Hg'. }
    destruct (List.length (arguments func) <=? List.length args)%nat eqn:Hlen.
    { apply Hskip. intros Hp. apply candidate_iff in Hp. destruct Hp; congruence. }
    destruct (FunctionSet.is_prefix LogicalType type_eqb args (arguments func)) eqn:Hpre.
    2: { apply Hskip. intros Hp. apply candidate_iff in Hp. destruct Hp; congruence. }
    assert (Hfunc : proper args func) by (apply candidate_iff; auto).
    split.
    + intros H. injection H as <-. exists [], rest.
      split; [reflexivity|]. split; [exact Hfunc|].
      intros g [].
    + intros (before & after & Heq & Hp & Hb).
      destruct before as [|g before]; cbn in Heq; injection Heq as -> ->.
      * reflexivity.
      * exfalso. apply (Hb g (or_introl eq_refl)). exact Hfunc.
Qed.

(** After a failed binding the aggregate lookup is the search of the set. *)
Lemma Aggregate_fallback (set : FunctionSet.t F) (args : list LogicalType) :
  fst (BindFunction (FunctionSet.name F set) (FunctionSet.functions F set) args)
  = INVALID_INDEX ->
  Aggregate set args
  = match FunctionSet.find_prefix LogicalType type_eqb F arguments
            (FunctionSet.functions F set) args with
    | Some func => Return func
    | None =>
        Throw (InternalException
                 (failed_to_find (FunctionSet.name F set) args
                    (snd (BindFunction (FunctionSet.name F set)
                            (FunctionSet.functions F set) args))))
    end.
Proof.
  intros Hbind.
  unfold Aggregate, FunctionSet.AggregateGetFunctionByArguments.
  destruct (BindFunction (FunctionSet.name F set) (FunctionSet.functions F set) args)
    as [index error].
  cbn [fst snd] in *. subst index. rewrite Z.eqb_refl. reflexivity.
Qed.

Lemma Forall2_eqb_eq (l1 l2 : list LogicalType) :
  (forall a b, type_eqb a b = true <-> a = b) ->
  Forall2 (fun a b => type_eqb a b = true) l1 l2 -> l2 = l1.
Proof.
  intros Heqb H. induction H as [|a b l1 l2 Hab _ IH]; [reflexivity|].
  apply Heqb in Hab. subst b. rewrite IH. reflexivity.
Qed.

(** X11: when the binder finds nothing, the aggregate lookup returns [f]
    exactly when [f] is the first function of the set that takes more
    arguments than were given and whose first arguments are the given ones;
    a function of as many arguments or fewer is never the answer. *)
Theorem Aggregate_returns_first_proper_prefix (set : FunctionSet.t F)
    (args : list LogicalType) (f : F) :
  fst (BindFunction (FunctionSet.name F set) (FunctionSet.functions F set) args)
  = INVALID_INDEX ->
  (Aggregate set args = Return f <->
   exists before after,
     FunctionSet.functions F set = before ++ f :: after /\
     proper args f /\
     forall g, In g before -> ~ proper args g).
Proof.
  intros Hbind. rewrite <- find_prefix_Some, (Aggregate_fallback set args Hbind).
  destruct (FunctionSet.find_prefix LogicalType type_eqb F arguments
              (FunctionSet.functions F set) args) as [func|].
  - split; intros H; injection H as <-; reflexivity.
  - split; discriminate.
Qed.

(** X12: the aggregate lookup throws exactly when the binder finds nothing
    and no function of the set takes the given arguments as its first
    arguments and more. *)
Theorem Aggregate_throws_iff (set : FunctionSet.t F) (args : list LogicalType) :
  throws (Aggregate set args) <->
  fst (BindFunction (FunctionSet.name F set) (FunctionSet.functions F set) args)
  = INVALID_INDEX /\
  forall g, In g (FunctionSet.functions F set) -> ~ proper args g.
Proof.
  rewrite <- find_prefix_None.
  unfold Aggregate, FunctionSet.AggregateGetFunctionByArguments.
  destruct (BindFunction (FunctionSet.name F set) (FunctionSet.functions F set) args)
    as [index error].
  cbn [fst].
  destruct (index =? INVALID_INDEX) eqn:Hindex.
  - apply Z.eqb_eq in Hindex.
    destruct (FunctionSet.find_prefix LogicalType type_eqb F arguments
                (FunctionSet.functions F set) args) as [func|].
    + split; [intros [e He]; discriminate He | intros [_ H]; discriminate H].
    + split; [auto | intros _; eexists; reflexivity].
  - apply Z.eqb_neq in Hindex.
    split; [intros [e He]; discriminate He | intros [H _]; contradiction].
Qed.

(** X14: when the comparison of the types decides their equality, the function
    a failed binding falls back to takes the given arguments followed by at
    least one more. *)
Theorem Aggregate_fallback_extends_arguments (set : FunctionSet.t F)
    (args : list LogicalType) (f : F) :
  (forall a b, type_eqb a b = true <-> a = b) ->
  fst (BindFunction (FunctionSet.name F set) (FunctionSet.functions F set) args)
  = INVALID_INDEX ->
  Aggregate set args = Return f ->
  In f (FunctionSet.functions F set) /\
  exists more, more <> [] /\ arguments f = args ++ more.
Proof.
  intros Heqb Hbind Hret.
  rewrite (Aggregate_fallback set args Hbind) in Hret.
  destruct (FunctionSet.find_prefix LogicalType type_eqb F arguments
              (FunctionSet.functions F set) args) as [func|] eqn:Hfind;
    [|discriminate Hret].
  injection Hret as ->.
  apply find_prefix_Some in Hfind.
  destruct Hfind as (before & after & Hfuncs & [Hlen Hpre] & _).
  split.
  { rewrite Hfuncs. apply in_or_app. right. left. reflexivity. }
  exists (skipn (List.length args) (arguments f)).
  apply (Forall2_eqb_eq _ _ Heqb) in Hpre.
  split.
  - intros Hnil.
    assert (Hl : List.length (skipn (List.length args) (arguments f)) = O)
      by (rewrite Hnil; reflexivity).
    rewrite length_skipn in Hl. lia.
  - pose proof (firstn_skipn (List.length args) (arguments f)) as Hsplit.
    rewrite Hpre in Hsplit. symmetry. exact Hsplit.
Qed.

End FunctionSetProofs.

Lemma Aggregate_returns_first_proper_prefix_witness :
  FunctionSample.lookup FunctionSample.quantile
    [FunctionSample.DOUBLE; FunctionSample.INTEGER]
  = Return ("q3"%string,
            [FunctionSample.DOUBLE; FunctionSample.INTEGER; FunctionSample.VARCHAR]).
Proof.
  apply (Aggregate_returns_first_proper_prefix FunctionSample.SqlType
           FunctionSample.SqlType_eqb FunctionSample.Func snd FunctionSample.invalid
           FunctionSample.no_binding FunctionSample.by_offset FunctionSample.text
           FunctionSample.quantile
           [FunctionSample.DOUBLE; FunctionSample.INTEGER]).
  - reflexivity.
  - exists [("q1"%string, [FunctionSample.DOUBLE]);
            ("q2"%string, [FunctionSample.DOUBLE; FunctionSample.INTEGER])],
           [("q4"%string,
             [FunctionSample.DOUBLE; FunctionSample.INTEGER; FunctionSample.DOUBLE])].
    split; [reflexivity|]. split.
    + split; [cbn; lia|]. cbn. repeat constructor.
    + intros g [<- | [<- | []]]; intros [Hlen _]; cbn in Hlen; lia.
Defined.

Lemma Aggregate_fallback_extends_arguments_witness :
  In ("q3"%string,
      [FunctionSample.DOUBLE; FunctionSample.INTEGER; FunctionSample.VARCHAR])
    (FunctionSet.functions FunctionSample.Func FunctionSample.quantile) /\
  exists more,
    more <> [] /\
    [FunctionSample.DOUBLE; FunctionSample.INTEGER; FunctionSample.VARCHAR]
    = [FunctionSample.DOUBLE; FunctionSample.INTEGER] ++ more.
Proof.
  apply (Aggregate_fallback_extends_arguments FunctionSample.SqlType
           FunctionSample.SqlType_eqb FunctionSample.Func snd FunctionSample.invalid
           FunctionSample.no_binding FunctionSample.by_offset FunctionSample.text
           FunctionSample.quantile
           [FunctionSample.DOUBLE; FunctionSample.INTEGER]
           ("q3"%string,
            [FunctionSample.DOUBLE; FunctionSample.INTEGER; FunctionSample.VARCHAR])).
  - intros a b. destruct a, b; cbn; split; intros H; try reflexivity; discriminate H.
  - reflexivity.
  - reflexivity.
Defined.

(** With no argument given, the fallback answers the first function that takes
    an argument; with all the arguments of the longest functions given, it
    throws. *)
Example Aggregate_fallback_edges :
  FunctionSample.lookup FunctionSample.quantile []
  = Return ("q1"%string, [FunctionSample.DOUBLE]) /\
  throws (FunctionSample.lookup FunctionSample.quantile
            [FunctionSample.DOUBLE; FunctionSample.INTEGER; FunctionSample.DOUBLE]).
Proof.
  split; [reflexivity|]. eexists. reflexivity.
Qed.

(** * Properties of the inner merge join *)

Module MergeJoinInnerProofs.

Import MergeJoinInner.

Lemma length_store (i x : nat) (a : list nat) :
  List.length (store i x a) = List.length a.
Proof.
  revert i. induction a as [|y a IH]; intros [|i]; cbn; auto.
Qed.

Lemma nth_store_same (i x d : nat) (a : list nat) :
  (i < List.length a)%nat -> nth i (store i x a) d = x.
Proof.
  revert i. induction a as [|y a IH]; intros [|i] Hi; cbn in *; try lia; auto.
  apply IH. lia.
Qed.

Lemma nth_store_other (i j x d : nat) (a : list nat) :
  i <> j -> nth i (store j x a) d = nth i a d.
Proof.
  revert i j. induction a as [|y a IH]; intros [|i] [|j] Hij; cbn; auto;
    first [congruence | apply IH; congruence].
Qed.

Section Proofs.

Variable T : Type.
Variable dflt : T.
Variable LessThan_op LessThanEquals_op GreaterThan_op Equals_op : T -> T -> bool.
Variable STANDARD_VECTOR_SIZE : nat.

Local Open Scope nat_scope.

Lemma value_set_pos (p q : nat) (m : MergeInfo T) :
  value T dflt (set_pos T p m) q = value T dflt m q.
Proof. reflexivity. Qed.

Lemma value_set_result (res : list nat) (q : nat) (m : MergeInfo T) :
  value T dflt (set_result T res m) q = value T dflt m q.
Proof. reflexivity. Qed.

Lemma same_input_refl (m : MergeInfo T) : same_input T m m.
Proof. repeat split. Qed.

Lemma same_input_trans (m1 m2 m3 : MergeInfo T) :
  same_input T m1 m2 -> same_input T m2 m3 -> same_input T m1 m3.
Proof.
  intros (Hd & Hc & Hs & Hr) (Hd' & Hc' & Hs' & Hr').
  repeat split; congruence.
Qed.

Lemma same_input_sel (m m' : MergeInfo T) (p : nat) :
  same_input T m m' -> sel T m' p = sel T m p.
Proof. intros (_ & _ & Hs & _). unfold sel. rewrite Hs. reflexivity. Qed.

Lemma same_input_value (m m' : MergeInfo T) (p : nat) :
  same_input T m m' -> value T dflt m' p = value T dflt m p.
Proof.
  intros H. unfold value. rewrite (same_input_sel _ _ p H).
  destruct H as (Hd & _). rewrite Hd. reflexivity.
Qed.

(** ** The loop of [LessThan] and [LessThanEquals] *)

Section Less.

Variable cmp : T -> T -> bool.

Lemma less_loop_terminates (fuel : nat) :
  forall (l r : MergeInfo T) (rc : nat),
    pos T r < count T r ->
    (count T r - pos T r) * S (count T l) + (count T l - pos T l) < fuel ->
    exists res, less_loop T dflt STANDARD_VECTOR_SIZE cmp fuel l r rc = Some res.
Proof.
  induction fuel as [|fuel IH]; intros l r rc Hr Hfuel;
    [exfalso; exact (Nat.nlt_0_r _ Hfuel)|].
  cbn [less_loop].
  destruct ((pos T l <? count T l) && cmp (value T dflt l (pos T l)) (value T dflt r (pos T r)))
    eqn:Hbranch.
  - apply andb_true_iff in Hbranch. destruct Hbranch as [Hl _].
    apply Nat.ltb_lt in Hl.
    cbn [emit set_result set_pos pos].
    destruct (S rc =? STANDARD_VECTOR_SIZE); [eexists; reflexivity|].
    apply IH; cbn; [exact Hr | lia].
  - cbn [set_pos pos count].
    destruct (S (pos T r) =? count T r) eqn:Hend; [eexists; reflexivity|].
    apply Nat.eqb_neq in Hend.
    apply IH; cbn; [lia | nia].
Qed.

Lemma less_Operation_total (l r : MergeInfo T) :
  exists res, less_Operation T dflt STANDARD_VECTOR_SIZE cmp l r = Some res.
Proof.
  unfold less_Operation.
  destruct (count T r <=? pos T r) eqn:Hguard; [eexists; reflexivity|].
  apply Nat.leb_gt in Hguard.
  apply less_loop_terminates; [exact Hguard | unfold less_fuel; lia].
Qed.

(** What a run of the loop leaves alone and how far it gets. *)
Lemma less_loop_frame (fuel : nat) :
  forall (l r : MergeInfo T) (rc : nat) (l' r' : MergeInfo T) (rc' : nat),
    less_loop T dflt STANDARD_VECTOR_SIZE cmp fuel l r rc = Some (l', r', rc') ->
    same_input T l l' /\ same_input T r r' /\ pos T r <= pos T r' /\ rc <= rc'.
Proof.
  induction fuel as [|fuel IH]; intros l r rc l' r' rc' Hrun; [discriminate Hrun|].
  cbn [less_loop] in Hrun.
  destruct ((pos T l <? count T l) && cmp (value T dflt l (pos T l)) (value T dflt r (pos T r))).
  - cbn [emit set_result set_pos pos] in Hrun.
    destruct (S rc =? STANDARD_VECTOR_SIZE).
    + injection Hrun as <- <- <-. cbn.
      repeat split; auto; apply length_store.
    + apply IH in Hrun. destruct Hrun as (Hl & Hr & Hp & Hc).
      cbn in Hp.
      split; [|split; [|split; [exact Hp | lia]]].
      * eapply same_input_trans; [|exact Hl].
        repeat split. cbn. apply length_store.
      * eapply same_input_trans; [|exact Hr].
        repeat split. cbn. apply length_store.
  - cbn [set_pos pos count] in Hrun.
    destruct (S (pos T r) =? count T r).
    + injection Hrun as <- <- <-. cbn. repeat split; auto.
    + apply IH in Hrun. destruct Hrun as (Hl & Hr & Hp & Hc).
      cbn in Hp.
      split; [|split; [|split; [lia | exact Hc]]].
      * eapply same_input_trans; [|exact Hl]. repeat split.
      * eapply same_input_trans; [|exact Hr]. repeat split.
Qed.

(** The count stays within the vector size, and the loop stops short of it
    only with the right side used up and the left side rewound. *)
Lemma less_loop_exit (fuel : nat) :
  forall (l r : MergeInfo T) (rc : nat) (l' r' : MergeInfo T) (rc' : nat),
    rc < STANDARD_VECTOR_SIZE ->
    less_loop T dflt STANDARD_VECTOR_SIZE cmp fuel l r rc = Some (l', r', rc') ->
    rc' <= STANDARD_VECTOR_SIZE /\
    (rc' < STANDARD_VECTOR_SIZE -> pos T r' = count T r' /\ pos T l' = 0).
Proof.
  induction fuel as [|fuel IH]; intros l r rc l' r' rc' Hrc Hrun; [discriminate Hrun|].
  cbn [less_loop] in Hrun.
  destruct ((pos T l <? count T l) && cmp (value T dflt l (pos T l)) (value T dflt r (pos T r))).
  - cbn [emit set_result set_pos pos] in Hrun.
    destruct (S rc =? STANDARD_VECTOR_SIZE) eqn:Hfull.
    + apply Nat.eqb_eq in Hfull. injection Hrun as <- <- <-. split; lia.
    + apply Nat.eqb_neq in Hfull. apply IH in Hrun; [exact Hrun | lia].
  - cbn [set_pos pos count] in Hrun.
    destruct (S (pos T r) =? count T r) eqn:Hend.
    + apply Nat.eqb_eq in Hend. injection Hrun as <- <- <-. cbn.
      split; [lia | auto].
    + apply IH in Hrun; [exact Hrun | exact Hrc].
Qed.

(** What the loop writes: the entries below the count it started from stay,
    and every entry from there on is a pair of selected tuples, the left one
    in the comparison with the right one. *)
Lemma less_loop_sound (fuel : nat) :
  forall (l r : MergeInfo T) (rc : nat) (l' r' : MergeInfo T) (rc' : nat),
    pos T r < count T r ->
    less_loop T dflt STANDARD_VECTOR_SIZE cmp fuel l r rc = Some (l', r', rc') ->
    (forall i, i < rc ->
       nth i (result T l') 0 = nth i (result T l) 0 /\
       nth i (result T r') 0 = nth i (result T r) 0) /\
    (forall i, rc <= i < rc' ->
       i < List.length (result T l) -> i < List.length (result T r) ->
       joined T dflt cmp l r l' r' i).
Proof.
  induction fuel as [|fuel IH]; intros l r rc l' r' rc' Hr Hrun; [discriminate Hrun|].
  cbn [less_loop] in Hrun.
  destruct ((pos T l <? count T l) && cmp (value T dflt l (pos T l)) (value T dflt r (pos T r)))
    eqn:Hbranch.
  - apply andb_true_iff in Hbranch. destruct Hbranch as [Hl Hcmp].
    apply Nat.ltb_lt in Hl.
    cbn [emit set_result set_pos pos] in Hrun.
    assert (Hhere : forall l2 r2 : MergeInfo T,
              nth rc (result T l2) 0 = sel T l (pos T l) ->
              nth rc (result T r2) 0 = sel T r (pos T r) ->
              joined T dflt cmp l r l2 r2 rc).
    { intros l2 r2 Ha Hb.
      exists (pos T l), (pos T r). repeat split; auto; lia. }
    destruct (S rc =? STANDARD_VECTOR_SIZE).
    + injection Hrun as <- <- <-. cbn [result set_pos set_result]. split.
      * intros i Hi. split; apply nth_store_other; lia.
      * intros i Hi Hlen Hlen'. assert (i = rc) by lia. subst i.
        apply Hhere; cbn [result set_pos set_result]; apply nth_store_same; assumption.
    + apply IH in Hrun; [|exact Hr]. destruct Hrun as [Hkeep Hnew].
      cbn [result set_pos set_result] in Hkeep, Hnew.
      split.
      * intros i Hi. destruct (Hkeep i (Nat.lt_lt_succ_r _ _ Hi)) as [Ha Hb].
        rewrite Ha, Hb. split; apply nth_store_other; lia.
      * intros i Hi Hlen Hlen'.
        destruct (Nat.eq_dec i rc) as [->|Hne].
        -- destruct (Hkeep rc (Nat.lt_succ_diag_r rc)) as [Ha Hb].
           apply Hhere; [rewrite Ha | rewrite Hb]; apply nth_store_same; assumption.
        -- rewrite !length_store in Hnew.
           destruct (Hnew i ltac:(lia) Hlen Hlen')
             as (lp & rp & Hlp & Hrp & Ha & Hb & Hc).
           exists lp, rp. repeat split; auto; cbn in Hrp; lia.
  - cbn [set_pos pos count] in Hrun.
    destruct (S (pos T r) =? count T r) eqn:Hend.
    + injection Hrun as <- <- <-. cbn [result set_pos]. split.
      * intros i Hi. split; reflexivity.
      * intros i Hi. lia.
    + apply Nat.eqb_neq in Hend.
      apply IH in Hrun; [|cbn; lia]. destruct Hrun as [Hkeep Hnew].
      cbn [result set_pos] in Hkeep, Hnew.
      split; [exact Hkeep|].
      intros i Hi Hlen Hlen'.
      destruct (Hnew i Hi Hlen Hlen') as (lp & rp & Hlp & Hrp & Ha & Hb & Hc).
      exists lp, rp. cbn in Hrp. repeat split; auto; lia.
Qed.

Ltac next_right_cursor Hrun H :=
  match type of Hrun with
  | less_loop _ _ _ _ _ _ ?r2 _ = _ =>
      assert (H : pos _ r2 < count _ r2) by (cbn; lia)
  end.

(** With the left side sorted for the comparison and room left in the result,
    no pair from the cursors on is missed. *)
Lemma less_loop_complete (fuel : nat) :
  forall (l r : MergeInfo T) (rc : nat) (l' r' : MergeInfo T) (rc' : nat),
    pos T r < count T r ->
    less_loop T dflt STANDARD_VECTOR_SIZE cmp fuel l r rc = Some (l', r', rc') ->
    rc' < STANDARD_VECTOR_SIZE ->
    STANDARD_VECTOR_SIZE <= List.length (result T l) ->
    STANDARD_VECTOR_SIZE <= List.length (result T r) ->
    left_sorted_for T dflt cmp l r ->
    forall lp rp,
      lp < count T l -> pos T r <= rp < count T r ->
      (rp = pos T r -> pos T l <= lp) ->
      cmp (value T dflt l lp) (value T dflt r rp) = true ->
      exists i, rc <= i < rc' /\
        nth i (result T l') 0 = sel T l lp /\
        nth i (result T r') 0 = sel T r rp.
Proof.
  induction fuel as [|fuel IH];
    intros l r rc l' r' rc' Hr Hrun Hroom Hlenl Hlenr Hsorted lp rp Hlp Hrp Hahead Hcmp;
    [discriminate Hrun|].
  cbn [less_loop] in Hrun.
  destruct ((pos T l <? count T l) && cmp (value T dflt l (pos T l)) (value T dflt r (pos T r)))
    eqn:Hbranch.
  - cbn [emit set_result set_pos pos] in Hrun.
    destruct (S rc =? STANDARD_VECTOR_SIZE) eqn:Hfull.
    { apply Nat.eqb_eq in Hfull. injection Hrun as <- <- <-. lia. }
    pose proof (less_loop_frame _ _ _ _ _ _ _ Hrun) as (_ & _ & _ & Hcount).
    next_right_cursor Hrun Hr2.
    pose proof (less_loop_sound _ _ _ _ _ _ _ Hr2 Hrun) as [Hkeep _].
    cbn [result set_pos set_result] in Hkeep.
    assert (Hrest : (rp = pos T r -> S (pos T l) <= lp) ->
              exists i, S rc <= i < rc' /\
                nth i (result T l') 0 = sel T l lp /\
                nth i (result T r') 0 = sel T r rp).
    { intros Hahead'.
      apply (IH _ _ _ _ _ _ Hr2 Hrun Hroom); cbn; rewrite ?length_store; auto. }
    destruct (Nat.eq_dec rp (pos T r)) as [Hrp0 | Hrp0];
      [destruct (Nat.eq_dec lp (pos T l)) as [Hlp0 | Hlp0]|].
    + subst lp rp. exists rc.
      destruct (Hkeep rc (Nat.lt_succ_diag_r rc)) as [Ha Hb].
      split; [lia|]. rewrite Ha, Hb.
      split; apply nth_store_same; lia.
    + destruct Hrest as (i & Hi & Hab).
      { intros _. specialize (Hahead Hrp0). lia. }
      exists i. split; [lia | exact Hab].
    + destruct Hrest as (i & Hi & Hab).
      { intros H. contradiction. }
      exists i. split; [lia | exact Hab].
  - assert (Hlater : rp <> pos T r).
    { intros ->. specialize (Hahead eq_refl).
      apply andb_false_iff in Hbranch. destruct Hbranch as [Hend | Hno].
      - apply Nat.ltb_ge in Hend. lia.
      - rewrite (Hsorted lp (pos T l) (pos T r)) in Hno;
          [discriminate Hno | lia | lia | exact Hcmp]. }
    cbn [set_pos pos count] in Hrun.
    destruct (S (pos T r) =? count T r) eqn:Hend.
    { apply Nat.eqb_eq in Hend. lia. }
    apply Nat.eqb_neq in Hend.
    next_right_cursor Hrun Hr2.
    apply (IH _ _ _ _ _ _ Hr2 Hrun Hroom); cbn; auto; lia.
Qed.

(** The operation itself: the guard, then the loop from count 0. *)
Lemma less_Operation_run (l r l' r' : MergeInfo T) (n : nat) :
  less_Operation T dflt STANDARD_VECTOR_SIZE cmp l r = Some (l', r', n) ->
  (count T r <= pos T r /\ l' = l /\ r' = r /\ n = 0) \/
  (pos T r < count T r /\
   less_loop T dflt STANDARD_VECTOR_SIZE cmp (less_fuel T l r) l r 0 = Some (l', r', n)).
Proof.
  unfold less_Operation.
  destruct (count T r <=? pos T r) eqn:Hguard.
  - apply Nat.leb_le in Hguard. intros H. injection H as <- <- <-. left. auto.
  - apply Nat.leb_gt in Hguard. intros H. right. auto.
Qed.

Lemma less_Operation_frame (l r l' r' : MergeInfo T) (n : nat) :
  less_Operation T dflt STANDARD_VECTOR_SIZE cmp l r = Some (l', r', n) ->
  same_input T l l' /\ same_input T r r' /\ pos T r <= pos T r'.
Proof.
  intros Hrun. apply less_Operation_run in Hrun.
  destruct Hrun as [(_ & -> & -> & _) | (_ & Hrun)].
  - split; [apply same_input_refl | split; [apply same_input_refl | lia]].
  - apply less_loop_frame in Hrun. tauto.
Qed.

Lemma less_Operation_exit (l r l' r' : MergeInfo T) (n : nat) :
  1 <= STANDARD_VECTOR_SIZE ->
  less_Operation T dflt STANDARD_VECTOR_SIZE cmp l r = Some (l', r', n) ->
  n <= STANDARD_VECTOR_SIZE /\
  (n < STANDARD_VECTOR_SIZE -> count T r' <= pos T r').
Proof.
  intros Hsize Hrun. apply less_Operation_run in Hrun.
  destruct Hrun as [(Hguard & -> & -> & ->) | (_ & Hrun)].
  - split; [lia | auto].
  - apply less_loop_exit in Hrun; [|lia]. destruct Hrun as [Hle Hstop].
    split; [exact Hle|]. intros Hn. destruct (Hstop Hn) as [Hpos _]. lia.
Qed.

Lemma less_Operation_sound (l r l' r' : MergeInfo T) (n : nat) :
  less_Operation T dflt STANDARD_VECTOR_SIZE cmp l r = Some (l', r', n) ->
  forall i, i < n ->
    i < List.length (result T l) -> i < List.length (result T r) ->
    joined T dflt cmp l r l' r' i.
Proof.
  intros Hrun i Hi Hlenl Hlenr. apply less_Operation_run in Hrun.
  destruct Hrun as [(_ & _ & _ & ->) | (Hr & Hrun)]; [lia|].
  apply less_loop_sound in Hrun; [|exact Hr].
  destruct Hrun as [_ Hnew]. apply Hnew; auto. lia.
Qed.

Lemma less_Operation_complete (l r l' r' : MergeInfo T) (n : nat) :
  less_Operation T dflt STANDARD_VECTOR_SIZE cmp l r = Some (l', r', n) ->
  n < STANDARD_VECTOR_SIZE ->
  STANDARD_VECTOR_SIZE <= List.length (result T l) ->
  STANDARD_VECTOR_SIZE <= List.length (result T r) ->
  left_sorted_for T dflt cmp l r ->
  forall lp rp,
    lp < count T l -> pos T r <= rp < count T r ->
    (rp = pos T r -> pos T l <= lp) ->
    cmp (value T dflt l lp) (value T dflt r rp) = true ->
    exists i, i < n /\
      nth i (result T l') 0 = sel T l lp /\
      nth i (result T r') 0 = sel T r rp.
Proof.
  intros Hrun Hroom Hlenl Hlenr Hsorted lp rp Hlp Hrp Hahead Hcmp.
  apply less_Operation_run in Hrun.
  destruct Hrun as [(Hguard & _) | (Hr & Hrun)]; [lia|].
  destruct (less_loop_complete _ _ _ _ _ _ _ Hr Hrun Hroom Hlenl Hlenr Hsorted
              lp rp Hlp Hrp Hahead Hcmp) as (i & Hi & Ha & Hb).
  exists i. split; [lia | auto].
Qed.

End Less.

(** ** The loop of [Equality] *)

Lemma back_up_le (v : T) (r : MergeInfo T) (p : nat) :
  back_up T dflt Equals_op v r p <= p.
Proof.
  induction p as [|p IH]; cbn; [lia|].
  destruct (Equals_op v (value T dflt r p)); lia.
Qed.

Lemma back_up_run_aux (v : T) (r : MergeInfo T) (p : nat) :
  back_up T dflt Equals_op v r p <= p /\
  (forall j, back_up T dflt Equals_op v r p <= j < p ->
             Equals_op v (value T dflt r j) = true) /\
  (forall q, back_up T dflt Equals_op v r p = S q ->
             Equals_op v (value T dflt r q) = false).
Proof.
  split; [apply back_up_le|].
  induction p as [|p [IHrun IHstop]]; cbn [back_up].
  - split; [intros j Hj; lia | intros q Hq; discriminate Hq].
  - destruct (Equals_op v (value T dflt r p)) eqn:Heq.
    + split; [|exact IHstop].
      intros j Hj. destruct (Nat.eq_dec j p) as [->|Hne]; [exact Heq|].
      apply IHrun. lia.
    + split; [intros j Hj; lia|].
      intros q Hq. injection Hq as <-. exact Heq.
Qed.

Lemma equality_loop_terminates (fuel : nat) :
  forall (l r : MergeInfo T) (rc : nat),
    pos T l < count T l -> pos T r <= count T r ->
    (count T l - pos T l) * S (count T r) + (count T r - pos T r) < fuel ->
    exists res,
      equality_loop T dflt LessThan_op GreaterThan_op Equals_op STANDARD_VECTOR_SIZE
        fuel l r rc = Some res.
Proof.
  induction fuel as [|fuel IH]; intros l r rc Hl Hr Hfuel;
    [exfalso; exact (Nat.nlt_0_r _ Hfuel)|].
  cbn [equality_loop].
  destruct ((pos T r =? count T r)
            || LessThan_op (value T dflt l (pos T l)) (value T dflt r (pos T r)))
    eqn:Hfirst.
  - cbn [set_pos pos count].
    destruct (count T l <=? S (pos T l)) eqn:Hend; [eexists; reflexivity|].
    apply Nat.leb_gt in Hend.
    pose proof (back_up_le
                  (value T dflt (set_pos T (S (pos T l)) l) (S (pos T l))) r (pos T r))
      as Hback.
    apply IH; cbn [set_pos pos count]; [lia | lia | nia].
  - apply orb_false_iff in Hfirst. destruct Hfirst as [Hnot _].
    apply Nat.eqb_neq in Hnot.
    destruct (GreaterThan_op (value T dflt l (pos T l)) (value T dflt r (pos T r))).
    + apply IH; cbn [set_pos pos count]; [lia | lia | lia].
    + cbn [emit set_result set_pos pos].
      destruct (S rc =? STANDARD_VECTOR_SIZE); [eexists; reflexivity|].
      apply IH; cbn [set_result set_pos pos count]; [lia | lia | lia].
Qed.

Lemma equality_loop_frame (fuel : nat) :
  forall (l r : MergeInfo T) (rc : nat) (l' r' : MergeInfo T) (rc' : nat),
    equality_loop T dflt LessThan_op GreaterThan_op Equals_op STANDARD_VECTOR_SIZE
      fuel l r rc = Some (l', r', rc') ->
    same_input T l l' /\ same_input T r r' /\ pos T l <= pos T l' /\ rc <= rc'.
Proof.
  induction fuel as [|fuel IH]; intros l r rc l' r' rc' Hrun; [discriminate Hrun|].
  cbn [equality_loop] in Hrun.
  destruct ((pos T r =? count T r)
            || LessThan_op (value T dflt l (pos T l)) (value T dflt r (pos T r))).
  - cbn [set_pos pos count] in Hrun.
    destruct (count T l <=? S (pos T l)).
    + injection Hrun as <- <- <-. cbn. repeat split; auto.
    + apply IH in Hrun. destruct Hrun as (Hl & Hr & Hp & Hc). cbn in Hp.
      split; [|split; [|split; [lia | exact Hc]]].
      * eapply same_input_trans; [|exact Hl]. repeat split.
      * eapply same_input_trans; [|exact Hr]. repeat split.
  - destruct (GreaterThan_op (value T dflt l (pos T l)) (value T dflt r (pos T r))).
    + apply IH in Hrun. destruct Hrun as (Hl & Hr & Hp & Hc).
      split; [exact Hl|]. split; [|split; [exact Hp | exact Hc]].
      eapply same_input_trans; [|exact Hr]. repeat split.
    + cbn [emit set_result set_pos pos] in Hrun.
      destruct (S rc =? STANDARD_VECTOR_SIZE).
      * injection Hrun as <- <- <-. cbn.
        repeat split; auto; apply length_store.
      * apply IH in Hrun. destruct Hrun as (Hl & Hr & Hp & Hc). cbn in Hp.
        split; [|split; [|split; [exact Hp | lia]]].
        -- eapply same_input_trans; [|exact Hl].
           repeat split. cbn. apply length_store.
        -- eapply same_input_trans; [|exact Hr].
           repeat split. cbn. apply length_store.
Qed.

Lemma equality_loop_exit (fuel : nat) :
  forall (l r : MergeInfo T) (rc : nat) (l' r' : MergeInfo T) (rc' : nat),
    rc < STANDARD_VECTOR_SIZE ->
    equality_loop T dflt LessThan_op GreaterThan_op Equals_op STANDARD_VECTOR_SIZE
      fuel l r rc = Some (l', r', rc') ->
    rc' <= STANDARD_VECTOR_SIZE /\
    (rc' < STANDARD_VECTOR_SIZE -> count T l' <= pos T l').
Proof.
  induction fuel as [|fuel IH]; intros l r rc l' r' rc' Hrc Hrun; [discriminate Hrun|].
  cbn [equality_loop] in Hrun.
  destruct ((pos T r =? count T r)
            || LessThan_op (value T dflt l (pos T l)) (value T dflt r (pos T r))).
  - cbn [set_pos pos count] in Hrun.
    destruct (count T l <=? S (pos T l)) eqn:Hend.
    + apply Nat.leb_le in Hend. injection Hrun as <- <- <-. cbn. split; [lia | auto].
    + apply IH in Hrun; [exact Hrun | exact Hrc].
  - destruct (GreaterThan_op (value T dflt l (pos T l)) (value T dflt r (pos T r))).
    + apply IH in Hrun; [exact Hrun | exact Hrc].
    + cbn [emit set_result set_pos pos] in Hrun.
      destruct (S rc =? STANDARD_VECTOR_SIZE) eqn:Hfull.
      * apply Nat.eqb_eq in Hfull. injection Hrun as <- <- <-. split; lia.
      * apply Nat.eqb_neq in Hfull. apply IH in Hrun; [exact Hrun | lia].
Qed.

Lemma equality_loop_sound (fuel : nat) :
  forall (l r : MergeInfo T) (rc : nat) (l' r' : MergeInfo T) (rc' : nat),
    pos T l < count T l -> pos T r <= count T r ->
    equality_loop T dflt LessThan_op GreaterThan_op Equals_op STANDARD_VECTOR_SIZE
      fuel l r rc = Some (l', r', rc') ->
    (forall i, i < rc ->
       nth i (result T l') 0 = nth i (result T l) 0 /\
       nth i (result T r') 0 = nth i (result T r) 0) /\
    (forall i, rc <= i < rc' ->
       i < List.length (result T l) -> i < List.length (result T r) ->
       matched T dflt LessThan_op GreaterThan_op l r l' r' i).
Proof.
  induction fuel as [|fuel IH]; intros l r rc l' r' rc' Hl Hr Hrun; [discriminate Hrun|].
  cbn [equality_loop] in Hrun.
  destruct ((pos T r =? count T r)
            || LessThan_op (value T dflt l (pos T l)) (value T dflt r (pos T r)))
    eqn:Hfirst.
  - cbn [set_pos pos count] in Hrun.
    destruct (count T l <=? S (pos T l)) eqn:Hend.
    + injection Hrun as <- <- <-. cbn [result set_pos]. split.
      * intros i Hi. split; reflexivity.
      * intros i Hi. lia.
    + apply Nat.leb_gt in Hend.
      pose proof (back_up_le
                    (value T dflt (set_pos T (S (pos T l)) l) (S (pos T l))) r (pos T r))
        as Hback.
      apply IH in Hrun; [|cbn [set_pos set_result pos count]; lia|cbn [set_pos set_result pos count]; lia]. destruct Hrun as [Hkeep Hnew].
      cbn [result set_pos] in Hkeep, Hnew.
      split; [exact Hkeep|].
      intros i Hi Hlenl Hlenr.
      destruct (Hnew i Hi Hlenl Hlenr) as (lp & rp & Hlp & Hrp & Ha & Hb & Hlt & Hgt).
      exists lp, rp. cbn [set_pos set_result pos count] in Hlp, Hrp. repeat split; auto; lia.
  - apply orb_false_iff in Hfirst. destruct Hfirst as [Hnot Hlt].
    apply Nat.eqb_neq in Hnot.
    destruct (GreaterThan_op (value T dflt l (pos T l)) (value T dflt r (pos T r)))
      eqn:Hgt.
    + apply IH in Hrun; [|exact Hl|cbn [set_pos set_result pos count]; lia]. destruct Hrun as [Hkeep Hnew].
      cbn [result set_pos] in Hkeep, Hnew.
      split; [exact Hkeep|].
      intros i Hi Hlenl Hlenr.
      destruct (Hnew i Hi Hlenl Hlenr) as (lp & rp & Hlp & Hrp & Ha & Hb & Hlt' & Hgt').
      exists lp, rp. cbn [set_pos set_result pos count] in Hrp. repeat split; auto; lia.
    + cbn [emit set_result set_pos pos] in Hrun.
      assert (Hhere : forall l2 r2 : MergeInfo T,
                nth rc (result T l2) 0 = sel T l (pos T l) ->
                nth rc (result T r2) 0 = sel T r (pos T r) ->
                matched T dflt LessThan_op GreaterThan_op l r l2 r2 rc).
      { intros l2 r2 Ha Hb.
        exists (pos T l), (pos T r). repeat split; auto; lia. }
      destruct (S rc =? STANDARD_VECTOR_SIZE).
      * injection Hrun as <- <- <-. cbn [result set_pos set_result]. split.
        -- intros i Hi. split; apply nth_store_other; lia.
        -- intros i Hi Hlenl Hlenr. assert (i = rc) by lia. subst i.
           apply Hhere; cbn [result set_pos set_result]; apply nth_store_same; assumption.
      * apply IH in Hrun; [|cbn [set_pos set_result pos count]; lia|cbn [set_pos set_result pos count]; lia]. destruct Hrun as [Hkeep Hnew].
        cbn [result set_pos set_result] in Hkeep, Hnew.
        split.
        -- intros i Hi. destruct (Hkeep i (Nat.lt_lt_succ_r _ _ Hi)) as [Ha Hb].
           rewrite Ha, Hb. split; apply nth_store_other; lia.
        -- intros i Hi Hlenl Hlenr.
           destruct (Nat.eq_dec i rc) as [->|Hne].
           ++ destruct (Hkeep rc (Nat.lt_succ_diag_r rc)) as [Ha Hb].
              apply Hhere; [rewrite Ha | rewrite Hb]; apply nth_store_same; assumption.
           ++ rewrite !length_store in Hnew.
              destruct (Hnew i ltac:(lia) Hlenl Hlenr)
                as (lp & rp & Hlp & Hrp & Ha & Hb & Hlt' & Hgt').
              exists lp, rp. cbn [set_pos set_result pos count] in Hlp, Hrp. repeat split; auto; lia.
Qed.

Lemma Equality_Operation_run (l r l' r' : MergeInfo T) (n : nat) :
  Equality_Operation T dflt LessThan_op GreaterThan_op Equals_op STANDARD_VECTOR_SIZE l r
  = Some (l', r', n) ->
  (count T l <= pos T l /\ l' = l /\ r' = r /\ n = 0) \/
  (pos T l < count T l /\
   equality_loop T dflt LessThan_op GreaterThan_op Equals_op STANDARD_VECTOR_SIZE
     (equality_fuel T l r) l r 0 = Some (l', r', n)).
Proof.
  unfold Equality_Operation.
  destruct (count T l <=? pos T l) eqn:Hguard.
  - apply Nat.leb_le in Hguard. intros H. injection H as <- <- <-. left. auto.
  - apply Nat.leb_gt in Hguard. intros H. right. auto.
Qed.

(** With both sides sorted, the right tuples before the cursor not above the
    current left tuple and room left in the result, no pair of equal tuples
    from the cursors on is missed. *)
Lemma equality_loop_complete (rank : T -> Z) (fuel : nat) :
  ordered_by T LessThan_op GreaterThan_op Equals_op rank ->
  forall (l r : MergeInfo T) (rc : nat) (l' r' : MergeInfo T) (rc' : nat),
    pos T l < count T l -> pos T r <= count T r ->
    equality_loop T dflt LessThan_op GreaterThan_op Equals_op STANDARD_VECTOR_SIZE
      fuel l r rc = Some (l', r', rc') ->
    rc' < STANDARD_VECTOR_SIZE ->
    STANDARD_VECTOR_SIZE <= List.length (result T l) ->
    STANDARD_VECTOR_SIZE <= List.length (result T r) ->
    sorted_by T dflt rank l -> sorted_by T dflt rank r ->
    (forall rp, rp < pos T r ->
       (rank (value T dflt r rp) <= rank (value T dflt l (pos T l)))%Z) ->
    forall lp rp,
      lp < count T l -> rp < count T r ->
      pos T l < lp \/ (lp = pos T l /\ pos T r <= rp) ->
      rank (value T dflt l lp) = rank (value T dflt r rp) ->
      exists i, rc <= i < rc' /\
        nth i (result T l') 0 = sel T l lp /\
        nth i (result T r') 0 = sel T r rp.
Proof.
  intros (Hlt & Hgt & Heq).
  induction fuel as [|fuel IH];
    intros l r rc l' r' rc' Hl Hr Hrun Hroom Hlenl Hlenr Hsl Hsr Hpre
           lp rp Hlp Hrp Hahead Hrank;
    [discriminate Hrun|].
  cbn [equality_loop] in Hrun.
  destruct ((pos T r =? count T r)
            || LessThan_op (value T dflt l (pos T l)) (value T dflt r (pos T r)))
    eqn:Hfirst.
  - assert (Hnone : forall rp', pos T r <= rp' < count T r ->
              rank (value T dflt l (pos T l)) <> rank (value T dflt r rp')).
    { intros rp' Hrp'. apply orb_true_iff in Hfirst. destruct Hfirst as [Hend | Hless].
      - apply Nat.eqb_eq in Hend. lia.
      - rewrite Hlt in Hless. apply Z.ltb_lt in Hless.
        pose proof (Hsr (pos T r) rp' ltac:(lia)). lia. }
    assert (Hnext : S (pos T l) <= lp).
    { destruct Hahead as [Hgo | [-> Hgo]]; [lia|].
      exfalso. apply (Hnone rp); [lia | exact Hrank]. }
    cbn [set_pos pos count] in Hrun.
    destruct (count T l <=? S (pos T l)) eqn:Hend.
    { apply Nat.leb_le in Hend. lia. }
    apply Nat.leb_gt in Hend.
    rewrite value_set_pos in Hrun.
    set (v := value T dflt l (S (pos T l))) in *.
    pose proof (back_up_le v r (pos T r)) as Hback.
    assert (Hpre' : forall rp', rp' < back_up T dflt Equals_op v r (pos T r) ->
              (rank (value T dflt r rp') <= rank v)%Z).
    { intros rp' Hrp'. pose proof (Hpre rp' ltac:(lia)).
      pose proof (Hsl (pos T l) (S (pos T l)) ltac:(lia)).
      unfold v. lia. }
    match type of Hrun with
    | equality_loop _ _ _ _ _ _ _ ?l2 ?r2 _ = _ =>
        apply (IH l2 r2 rc l' r' rc'); cbn [set_pos pos count result]; auto; try lia
    end.
    destruct (Nat.eq_dec lp (S (pos T l))) as [Hlp1 | Hlp1]; [|left; lia].
    right. split; [exact Hlp1|].
    destruct (Nat.le_gt_cases (back_up T dflt Equals_op v r (pos T r)) rp)
      as [Hok | Hbefore]; [exact Hok|].
    exfalso.
    destruct (back_up T dflt Equals_op v r (pos T r)) as [|q] eqn:Hq; [lia|].
    pose proof (proj2 (proj2 (back_up_run_aux v r (pos T r))) q Hq) as Hstop.
    rewrite Heq in Hstop. apply Z.eqb_neq in Hstop.
    pose proof (Hpre' q ltac:(lia)).
    pose proof (Hsr rp q ltac:(lia)).
    subst lp. unfold v in *. lia.
  - apply orb_false_iff in Hfirst. destruct Hfirst as [Hnot Hless].
    apply Nat.eqb_neq in Hnot.
    rewrite Hlt in Hless. apply Z.ltb_ge in Hless.
    destruct (GreaterThan_op (value T dflt l (pos T l)) (value T dflt r (pos T r)))
      eqn:Hgreater.
    + rewrite Hgt in Hgreater. apply Z.ltb_lt in Hgreater.
      match type of Hrun with
      | equality_loop _ _ _ _ _ _ _ ?l2 ?r2 _ = _ =>
          apply (IH l2 r2 rc l' r' rc'); cbn [set_pos pos count result]; auto; try lia
      end.
      all: try (intros rp' Hrp'; destruct (Nat.eq_dec rp' (pos T r)) as [->|Hne];
                    rewrite ?value_set_pos, ?value_set_result; [lia | apply Hpre; lia]).
      destruct Hahead as [Hgo | [-> Hgo]]; [left; exact Hgo|].
      right. split; [reflexivity|].
      destruct (Nat.eq_dec rp (pos T r)) as [->|Hne]; [lia | lia].
    + rewrite Hgt in Hgreater. apply Z.ltb_ge in Hgreater.
      cbn [emit set_result set_pos pos] in Hrun.
      destruct (S rc =? STANDARD_VECTOR_SIZE) eqn:Hfull.
      { apply Nat.eqb_eq in Hfull. injection Hrun as <- <- <-. lia. }
      pose proof (equality_loop_frame _ _ _ _ _ _ _ Hrun) as (_ & _ & _ & Hcount).
      assert (Hkeep : nth rc (result T l') 0 = sel T l (pos T l) /\
                      nth rc (result T r') 0 = sel T r (pos T r)).
      { match type of Hrun with
        | equality_loop _ _ _ _ _ _ _ ?l2 ?r2 _ = _ =>
            assert (Hl2 : pos T l2 < count T l2) by (cbn [set_pos set_result pos count]; lia);
            assert (Hr2 : pos T r2 <= count T r2) by (cbn [set_pos set_result pos count]; lia)
        end.
        destruct (equality_loop_sound _ _ _ _ _ _ _ Hl2 Hr2 Hrun) as [Hkeep _].
        destruct (Hkeep rc (Nat.lt_succ_diag_r rc)) as [Ha Hb].
        cbn [result set_pos set_result] in Ha, Hb.
        rewrite Ha, Hb. split; apply nth_store_same; lia. }
      destruct (Nat.eq_dec lp (pos T l)) as [Hlp0 | Hlp0];
        [destruct (Nat.eq_dec rp (pos T r)) as [Hrp0 | Hrp0]|].
      * subst lp rp. exists rc. split; [lia | exact Hkeep].
      * assert (Hrest : exists i, S rc <= i < rc' /\
                  nth i (result T l') 0 = sel T l lp /\
                  nth i (result T r') 0 = sel T r rp).
        { match type of Hrun with
          | equality_loop _ _ _ _ _ _ _ ?l2 ?r2 _ = _ =>
              apply (IH l2 r2 (S rc) l' r' rc');
                cbn [set_pos set_result pos count result]; rewrite ?length_store;
                auto; try lia
          end.
          all: try (intros rp' Hrp'; destruct (Nat.eq_dec rp' (pos T r)) as [->|Hne];
                    rewrite ?value_set_pos, ?value_set_result; [lia | apply Hpre; lia]). }
        destruct Hrest as (i & Hi & Hab). exists i. split; [lia | exact Hab].
      * assert (Hrest : exists i, S rc <= i < rc' /\
                  nth i (result T l') 0 = sel T l lp /\
                  nth i (result T r') 0 = sel T r rp).
        { match type of Hrun with
          | equality_loop _ _ _ _ _ _ _ ?l2 ?r2 _ = _ =>
              apply (IH l2 r2 (S rc) l' r' rc');
                cbn [set_pos set_result pos count result]; rewrite ?length_store;
                auto; try lia
          end.
          all: try (intros rp' Hrp'; destruct (Nat.eq_dec rp' (pos T r)) as [->|Hne];
                    rewrite ?value_set_pos, ?value_set_result; [lia | apply Hpre; lia]). }
        destruct Hrest as (i & Hi & Hab). exists i. split; [lia | exact Hab].
Qed.

(** ** [LessThan::Operation] and [LessThanEquals::Operation] *)

(** X15: [LessThan::Operation] and [LessThanEquals::Operation] return for
    every pair of inputs: their loops end.  They leave the data, the counts
    and the selection vectors as they were, never move the right cursor back,
    and with the right side used up on entry they return 0 and change
    nothing. *)
Theorem LessThan_returns (l r : MergeInfo T) :
  (exists l' r' n,
     LessThan_Operation T dflt LessThan_op STANDARD_VECTOR_SIZE l r = Some (l', r', n) /\
     same_input T l l' /\ same_input T r r' /\ pos T r <= pos T r' /\
     (count T r <= pos T r -> l' = l /\ r' = r /\ n = 0)) /\
  (exists l' r' n,
     LessThanEquals_Operation T dflt LessThanEquals_op STANDARD_VECTOR_SIZE l r
     = Some (l', r', n) /\
     same_input T l l' /\ same_input T r r' /\ pos T r <= pos T r' /\
     (count T r <= pos T r -> l' = l /\ r' = r /\ n = 0)).
Proof.
  assert (Hany : forall cmp, exists l' r' n,
            less_Operation T dflt STANDARD_VECTOR_SIZE cmp l r = Some (l', r', n) /\
            same_input T l l' /\ same_input T r r' /\ pos T r <= pos T r' /\
            (count T r <= pos T r -> l' = l /\ r' = r /\ n = 0)).
  { intros cmp. destruct (less_Operation_total cmp l r) as [[[l' r'] n] Hrun].
    exists l', r', n. split; [exact Hrun|].
    destruct (less_Operation_frame cmp _ _ _ _ _ Hrun) as (Hl & Hr & Hp).
    split; [exact Hl|]. split; [exact Hr|]. split; [exact Hp|].
    intros Hguard. apply less_Operation_run in Hrun.
    destruct Hrun as [(_ & H1 & H2 & H3) | (Hlt & _)]; [auto | lia]. }
  split; apply Hany.
Qed.

(** X16: with a vector size of at least one, the two operations return at
    most [STANDARD_VECTOR_SIZE] pairs, and fewer only when the right side is
    used up. *)
Theorem LessThan_within_vector (l r l' r' : MergeInfo T) (n : nat) :
  1 <= STANDARD_VECTOR_SIZE ->
  (LessThan_Operation T dflt LessThan_op STANDARD_VECTOR_SIZE l r = Some (l', r', n) ->
   n <= STANDARD_VECTOR_SIZE /\ (n < STANDARD_VECTOR_SIZE -> count T r' <= pos T r')) /\
  (LessThanEquals_Operation T dflt LessThanEquals_op STANDARD_VECTOR_SIZE l r
   = Some (l', r', n) ->
   n <= STANDARD_VECTOR_SIZE /\ (n < STANDARD_VECTOR_SIZE -> count T r' <= pos T r')).
Proof.
  intros Hsize. split; apply less_Operation_exit; exact Hsize.
Qed.

(** X17: every pair the two operations write is a pair of selected tuples for
    which the comparison holds: the left tuple is less than the right one
    for [LessThan], less than or equal for [LessThanEquals]. *)
Theorem LessThan_sound (l r l' r' : MergeInfo T) (n i : nat) :
  i < n -> i < List.length (result T l) -> i < List.length (result T r) ->
  (LessThan_Operation T dflt LessThan_op STANDARD_VECTOR_SIZE l r = Some (l', r', n) ->
   joined T dflt LessThan_op l r l' r' i) /\
  (LessThanEquals_Operation T dflt LessThanEquals_op STANDARD_VECTOR_SIZE l r
   = Some (l', r', n) ->
   joined T dflt LessThanEquals_op l r l' r' i).
Proof.
  intros Hi Hlenl Hlenr.
  split; intros Hrun; eapply less_Operation_sound; eauto.
Qed.

(** X18: when the left side is sorted for the comparison, the result arrays
    hold a vector and the operation returns fewer pairs than a vector holds,
    no pair is missed: every left tuple in the comparison with a right tuple
    from the cursors on is among the pairs written. *)
Theorem LessThan_complete (l r l' r' : MergeInfo T) (n lp rp : nat) :
  n < STANDARD_VECTOR_SIZE ->
  STANDARD_VECTOR_SIZE <= List.length (result T l) ->
  STANDARD_VECTOR_SIZE <= List.length (result T r) ->
  lp < count T l -> pos T r <= rp < count T r ->
  (rp = pos T r -> pos T l <= lp) ->
  (LessThan_Operation T dflt LessThan_op STANDARD_VECTOR_SIZE l r = Some (l', r', n) ->
   left_sorted_for T dflt LessThan_op l r ->
   LessThan_op (value T dflt l lp) (value T dflt r rp) = true ->
   exists i, i < n /\
     nth i (result T l') 0 = sel T l lp /\ nth i (result T r') 0 = sel T r rp) /\
  (LessThanEquals_Operation T dflt LessThanEquals_op STANDARD_VECTOR_SIZE l r
   = Some (l', r', n) ->
   left_sorted_for T dflt LessThanEquals_op l r ->
   LessThanEquals_op (value T dflt l lp) (value T dflt r rp) = true ->
   exists i, i < n /\
     nth i (result T l') 0 = sel T l lp /\ nth i (result T r') 0 = sel T r rp).
Proof.
  intros Hroom Hlenl Hlenr Hlp Hrp Hahead.
  split; intros Hrun Hsorted Hcmp;
    eapply less_Operation_complete; eauto.
Qed.

(** ** [Equality::Operation] *)

(** X19: going back on the right side stops at the start of the run of right
    tuples equal to the new left tuple: every tuple between the new and the
    old cursor is equal to it, and the one before the new cursor, if there is
    one, is not. *)
Theorem back_up_run (v : T) (r : MergeInfo T) (p : nat) :
  back_up T dflt Equals_op v r p <= p /\
  (forall j, back_up T dflt Equals_op v r p <= j < p ->
             Equals_op v (value T dflt r j) = true) /\
  (forall q, back_up T dflt Equals_op v r p = S q ->
             Equals_op v (value T dflt r q) = false).
Proof. apply back_up_run_aux. Qed.

(** X20: with the right cursor inside its side, [Equality::Operation] returns:
    its loops end.  It leaves the data, the counts and the selection vectors
    as they were, never moves the left cursor back, and with the left side
    used up on entry it returns 0 and changes nothing. *)
Theorem Equality_returns (l r : MergeInfo T) :
  pos T r <= count T r ->
  exists l' r' n,
    Equality_Operation T dflt LessThan_op GreaterThan_op Equals_op STANDARD_VECTOR_SIZE l r
    = Some (l', r', n) /\
    same_input T l l' /\ same_input T r r' /\ pos T l <= pos T l' /\
    (count T l <= pos T l -> l' = l /\ r' = r /\ n = 0).
Proof.
  intros Hr. unfold Equality_Operation.
  destruct (count T l <=? pos T l) eqn:Hguard.
  - exists l, r, 0. split; [reflexivity|].
    split; [apply same_input_refl|]. split; [apply same_input_refl|]. auto.
  - apply Nat.leb_gt in Hguard.
    destruct (equality_loop_terminates (equality_fuel T l r) l r 0 Hguard Hr)
      as [[[l' r'] n] Hrun]; [unfold equality_fuel; lia|].
    exists l', r', n. split; [exact Hrun|].
    apply equality_loop_frame in Hrun. destruct Hrun as (Hl & Hr' & Hp & _).
    split; [exact Hl|]. split; [exact Hr'|]. split; [exact Hp|]. lia.
Qed.

(** X21: with a vector size of at least one, [Equality::Operation] returns at
    most [STANDARD_VECTOR_SIZE] pairs, and fewer only when the left side is
    used up. *)
Theorem Equality_within_vector (l r l' r' : MergeInfo T) (n : nat) :
  1 <= STANDARD_VECTOR_SIZE ->
  Equality_Operation T dflt LessThan_op GreaterThan_op Equals_op STANDARD_VECTOR_SIZE l r
  = Some (l', r', n) ->
  n <= STANDARD_VECTOR_SIZE /\ (n < STANDARD_VECTOR_SIZE -> count T l' <= pos T l').
Proof.
  intros Hsize Hrun. apply Equality_Operation_run in Hrun.
  destruct Hrun as [(Hguard & -> & -> & ->) | (_ & Hrun)].
  - split; [lia | auto].
  - apply equality_loop_exit in Hrun; [exact Hrun | lia].
Qed.

(** X22: with the right cursor inside its side on entry, every pair
    [Equality::Operation] writes is a pair of selected tuples of which the
    left one is neither less nor greater than the right one. *)
Theorem Equality_sound (l r l' r' : MergeInfo T) (n i : nat) :
  pos T r <= count T r ->
  Equality_Operation T dflt LessThan_op GreaterThan_op Equals_op STANDARD_VECTOR_SIZE l r
  = Some (l', r', n) ->
  i < n -> i < List.length (result T l) -> i < List.length (result T r) ->
  matched T dflt LessThan_op GreaterThan_op l r l' r' i.
Proof.
  intros Hr Hrun Hi Hlenl Hlenr. apply Equality_Operation_run in Hrun.
  destruct Hrun as [(_ & _ & _ & ->) | (Hl & Hrun)]; [lia|].
  apply equality_loop_sound in Hrun; [|exact Hl|exact Hr].
  destruct Hrun as [_ Hnew]. apply Hnew; auto. lia.
Qed.

(** X23: when the operators compare by a rank, both sides are sorted, the
    right cursor is inside its side on entry, the right tuples before it are
    not above the current left tuple (on a first call there are none), the
    result arrays hold a vector and the operation returns fewer pairs than a
    vector holds, no pair of equal tuples from the cursors on is missed. *)
Theorem Equality_complete (rank : T -> Z) (l r l' r' : MergeInfo T) (n lp rp : nat) :
  ordered_by T LessThan_op GreaterThan_op Equals_op rank ->
  sorted_by T dflt rank l -> sorted_by T dflt rank r ->
  pos T r <= count T r ->
  (forall rp', rp' < pos T r ->
     (rank (value T dflt r rp') <= rank (value T dflt l (pos T l)))%Z) ->
  Equality_Operation T dflt LessThan_op GreaterThan_op Equals_op STANDARD_VECTOR_SIZE l r
  = Some (l', r', n) ->
  n < STANDARD_VECTOR_SIZE ->
  STANDARD_VECTOR_SIZE <= List.length (result T l) ->
  STANDARD_VECTOR_SIZE <= List.length (result T r) ->
  lp < count T l -> rp < count T r ->
  pos T l < lp \/ (lp = pos T l /\ pos T r <= rp) ->
  rank (value T dflt l lp) = rank (value T dflt r rp) ->
  exists i, i < n /\
    nth i (result T l') 0 = sel T l lp /\ nth i (result T r') 0 = sel T r rp.
Proof.
  intros Hord Hsl Hsr Hr Hpre Hrun Hroom Hlenl Hlenr Hlp Hrp Hahead Hrank.
  apply Equality_Operation_run in Hrun.
  destruct Hrun as [(Hguard & _) | (Hl & Hrun)]; [lia|].
  destruct (equality_loop_complete rank _ Hord _ _ _ _ _ _ Hl Hr Hrun Hroom Hlenl Hlenr
              Hsl Hsr Hpre lp rp Hlp Hrp Hahead Hrank) as (i & Hi & Hab).
  exists i. split; [lia | exact Hab].
Qed.

End Proofs.

Lemma LessThan_within_vector_witness :
  (4 <= 8 /\ (4 < 8 -> count Z MergeSample.right_after <= pos Z MergeSample.right_after))%nat.
Proof.
  assert (Hsize : (1 <= 8)%nat) by lia.
  apply (proj1 (LessThan_within_vector Z 0 Z.ltb Z.leb 8
                  MergeSample.left MergeSample.right
                  MergeSample.left_after MergeSample.right_after 4 Hsize)).
  reflexivity.
Defined.

Lemma LessThan_sound_witness :
  joined Z 0 Z.ltb MergeSample.left MergeSample.right
    MergeSample.left_after MergeSample.right_after 3.
Proof.
  assert (Hi : (3 < 4)%nat) by lia.
  assert (Hlen : (3 < 8)%nat) by lia.
  apply (proj1 (LessThan_sound Z 0 Z.ltb Z.leb 8
                  MergeSample.left MergeSample.right
                  MergeSample.left_after MergeSample.right_after 4 3 Hi Hlen Hlen)).
  reflexivity.
Defined.

Lemma MergeSample_left_sorted :
  left_sorted_for Z 0 Z.ltb MergeSample.left MergeSample.right.
Proof.
  intros lp lp' rp Hlp Hrp. cbn in Hlp, Hrp.
  destruct rp as [|[|rp]]; [| |lia];
    destruct lp as [|[|[|[|lp]]]]; try lia;
    destruct lp' as [|[|[|[|lp']]]]; try lia;
    cbn; intros H; try reflexivity; try discriminate H.
Qed.

Lemma LessThan_complete_witness :
  exists i,
    (i < 4)%nat /\
    nth i (result Z MergeSample.left_after) O = sel Z MergeSample.left 2 /\
    nth i (result Z MergeSample.right_after) O = sel Z MergeSample.right 1.
Proof.
  assert (Hroom : (4 < 8)%nat) by lia.
  assert (Hlen : (8 <= 8)%nat) by lia.
  assert (Hlp : (2 < 4)%nat) by lia.
  assert (Hrp : (0 <= 1 < 2)%nat) by lia.
  assert (Hahead : 1%nat = O -> (0 <= 2)%nat) by (intros H; discriminate H).
  apply (proj1 (LessThan_complete Z 0 Z.ltb Z.leb 8
                  MergeSample.left MergeSample.right
                  MergeSample.left_after MergeSample.right_after 4 2 1
                  Hroom Hlen Hlen Hlp Hrp Hahead)).
  - reflexivity.
  - exact MergeSample_left_sorted.
  - reflexivity.
Defined.

Lemma Equality_returns_witness :
  exists l' r' n,
    MergeSample.Equality MergeSample.left_eq MergeSample.right_eq = Some (l', r', n) /\
    same_input Z MergeSample.left_eq l' /\ same_input Z MergeSample.right_eq r' /\
    (pos Z MergeSample.left_eq <= pos Z l')%nat /\
    ((count Z MergeSample.left_eq <= pos Z MergeSample.left_eq)%nat ->
     l' = MergeSample.left_eq /\ r' = MergeSample.right_eq /\ n = O).
Proof.
  apply (Equality_returns Z 0 Z.ltb Z.gtb Z.eqb 8 MergeSample.left_eq MergeSample.right_eq).
  cbn. lia.
Defined.

Lemma Equality_within_vector_witness :
  (5 <= 8 /\
   (5 < 8 -> count Z MergeSample.left_eq_after <= pos Z MergeSample.left_eq_after))%nat.
Proof.
  apply (Equality_within_vector Z 0 Z.ltb Z.gtb Z.eqb 8
           MergeSample.left_eq MergeSample.right_eq
           MergeSample.left_eq_after MergeSample.right_eq_after 5).
  - lia.
  - reflexivity.
Defined.

Lemma Equality_sound_witness :
  matched Z 0 Z.ltb Z.gtb MergeSample.left_eq MergeSample.right_eq
    MergeSample.left_eq_after MergeSample.right_eq_after 4.
Proof.
  apply (Equality_sound Z 0 Z.ltb Z.gtb Z.eqb 8
           MergeSample.left_eq MergeSample.right_eq
           MergeSample.left_eq_after MergeSample.right_eq_after 5 4).
  - cbn. lia.
  - reflexivity.
  - lia.
  - cbn. lia.
  - cbn. lia.
Defined.

Lemma MergeSample_sorted :
  sorted_by Z 0 (fun z => z) MergeSample.left_eq /\
  sorted_by Z 0 (fun z => z) MergeSample.right_eq.
Proof.
  split; intros p q Hpq; cbn in Hpq.
  - destruct q as [|[|[|[|[|q]]]]]; try lia;
      destruct p as [|[|[|[|[|p]]]]]; try lia; cbn; lia.
  - destruct q as [|[|[|[|q]]]]; try lia;
      destruct p as [|[|[|[|p]]]]; try lia; cbn; lia.
Qed.

Lemma Z_operators_ordered : ordered_by Z Z.ltb Z.gtb Z.eqb (fun z => z).
Proof.
  split; [reflexivity|]. split; [|reflexivity].
  intros a b. apply Z.gtb_ltb.
Qed.

Lemma Equality_complete_witness :
  exists i,
    (i < 5)%nat /\
    nth i (result Z MergeSample.left_eq_after) O = sel Z MergeSample.left_eq 2 /\
    nth i (result Z MergeSample.right_eq_after) O = sel Z MergeSample.right_eq 1.
Proof.
  assert (Hr : (pos Z MergeSample.right_eq <= count Z MergeSample.right_eq)%nat)
    by (cbn; lia).
  assert (Hpre : forall rp', (rp' < pos Z MergeSample.right_eq)%nat ->
            value Z 0 MergeSample.right_eq rp'
            <= value Z 0 MergeSample.left_eq (pos Z MergeSample.left_eq))
    by (intros rp' H; cbn in H; lia).
  assert (Hroom : (5 < 8)%nat) by lia.
  assert (Hlen : (8 <= 8)%nat) by lia.
  assert (Hlp : (2 < 5)%nat) by lia.
  assert (Hrp : (1 < 4)%nat) by lia.
  assert (Hahead : (0 < 2)%nat \/ (2%nat = O /\ (0 <= 1)%nat)) by (left; lia).
  apply (Equality_complete Z 0 Z.ltb Z.gtb Z.eqb 8 (fun z => z)
           MergeSample.left_eq MergeSample.right_eq
           MergeSample.left_eq_after MergeSample.right_eq_after 5 2 1
           Z_operators_ordered (proj1 MergeSample_sorted) (proj2 MergeSample_sorted)
           Hr Hpre eq_refl Hroom Hlen Hlen Hlp Hrp Hahead eq_refl).
Defined.

(** The three joins of the sample columns. *)
Example joins_of_the_samples :
  MergeSample.LessThan MergeSample.left MergeSample.right
  = Some (MergeSample.left_after, MergeSample.right_after, 4%nat) /\
  MergeSample.LessThanEquals MergeSample.left MergeSample.right
  = Some (MergeSample.with_result [0; 1; 0; 1; 2; 0; 0; 0]%nat MergeSample.left,
          MergeSample.with_result [0; 0; 1; 1; 1; 0; 0; 0]%nat
            (MergeSample.column [2; 4] 2),
          5%nat) /\
  MergeSample.Equality MergeSample.left_eq MergeSample.right_eq
  = Some (MergeSample.left_eq_after, MergeSample.right_eq_after, 5%nat).
Proof. repeat split. Qed.

End MergeJoinInnerProofs.
